(** * Discrete-event M/D/1 queue simulation: Event, Schedule, Queue, Airport

    Shallow embedding of [Class_Prep/queueMD1_session3.py].

    Modelling conventions.
    - Python [float] timestamps, rates and intervals are exact rationals [Q];
      rounding is outside the model.  [float('inf')] is the extra point of
      [xtime].  Division by a zero float raises [ZeroDivisionError].
    - Python [int] counters ([queue_length], [in_service]) are [Z].
    - A method that mutates [self] and the schedule takes the old objects and
      returns the new ones; an exception keeps the objects as they were
      mutated up to the raise ([Raise e st]).
    - An event's [function] is a bound method; it is represented by a tag and
      dispatched by the [call] function of the world the schedule runs in.
      The program never passes extra [args]/[kwargs] to an event.
    - [heapq] and [random.expovariate] are standard-library code; they are
      embedded after CPython's [Lib/heapq.py] and [Lib/random.py]. *)

From Stdlib Require Import QArith Lqa ZArith Sorting.Sorted Permutation.
From stdpp Require Import base list.

Set Default Proof Using "Type".

(** ** heapq: the list-based binary min-heap of the standard library *)

Module heapq.
Section heapq.
Context {A : Type}.
(** [lt a b] is Python's [a < b], i.e. [a.__lt__(b)]. *)
Variable lt : A → A → bool.

(** [heap[i] = x]; [None] is [IndexError]. *)
Definition setitem (heap : list A) (i : nat) (x : A) : option (list A) :=
  if decide (i < length heap) then Some (<[i:=x]> heap) else None.

(** [list.pop()]: removes and returns the last item; [None] is
    [IndexError: pop from empty list]. *)
Definition list_pop (heap : list A) : option (A * list A) :=
  x ← last heap; Some (x, removelast heap).

(** The [while pos > startpos] loop of [_siftdown].  Each iteration moves
    [pos] to its parent, so [pos] iterations always suffice. *)
Fixpoint siftdown_loop (fuel : nat) (heap : list A) (startpos pos : nat)
    (newitem : A) : option (list A) :=
  match fuel with
  | O => if startpos <? pos then None else setitem heap pos newitem
  | S fuel' =>
      if startpos <? pos then
        let parentpos := (pos - 1) / 2 in
        parent ← heap !! parentpos;
        if lt newitem parent then
          heap ← setitem heap pos parent;
          siftdown_loop fuel' heap startpos parentpos newitem
        else setitem heap pos newitem
      else setitem heap pos newitem
  end.

Definition _siftdown (heap : list A) (startpos pos : nat) : option (list A) :=
  newitem ← heap !! pos;
  siftdown_loop pos heap startpos pos newitem.

(** The [while childpos < endpos] loop of [_siftup]: bubbles the smaller
    child up until [pos] is a leaf; returns the list and the leaf. *)
Fixpoint siftup_loop (fuel : nat) (heap : list A) (endpos pos : nat)
    : option (list A * nat) :=
  let childpos := 2 * pos + 1 in
  match fuel with
  | O => if childpos <? endpos then None else Some (heap, pos)
  | S fuel' =>
      if childpos <? endpos then
        let rightpos := childpos + 1 in
        childpos ←
          (if rightpos <? endpos then
             l ← heap !! childpos;
             r ← heap !! rightpos;
             Some (if negb (lt l r) then rightpos else childpos)
           else Some childpos);
        c ← heap !! childpos;
        heap ← setitem heap pos c;
        siftup_loop fuel' heap endpos childpos
      else Some (heap, pos)
  end.

Definition _siftup (heap : list A) (pos : nat) : option (list A) :=
  let endpos := length heap in
  let startpos := pos in
  newitem ← heap !! pos;
  '(heap, pos) ← siftup_loop endpos heap endpos pos;
  heap ← setitem heap pos newitem;
  _siftdown heap startpos pos.

Definition heappush (heap : list A) (item : A) : option (list A) :=
  let heap := heap ++ [item] in
  _siftdown heap 0 (length heap - 1).

Definition heappop (heap : list A) : option (A * list A) :=
  '(lastelt, heap) ← list_pop heap;
  match heap with
  | [] => Some (lastelt, heap)
  | _ :: _ =>
      returnitem ← heap !! 0;
      heap ← setitem heap 0 lastelt;
      heap ← _siftup heap 0;
      Some (returnitem, heap)
  end.

End heapq.
End heapq.

(** ** Exceptions, outcomes, extended time *)

Inductive exn := ZeroDivisionError | IndexError.

(** Result of a call that mutates the objects [St]: normal return, or an
    exception raised with the objects as mutated so far. *)
Inductive outcome (St : Type) :=
  | Ok (st : St)
  | Raise (e : exn) (st : St).
Arguments Ok {St} st.
Arguments Raise {St} e st.

(** The objects after the call, returned or raised. *)
Definition final {St} (o : outcome St) : St :=
  match o with Ok st => st | Raise _ st => st end.

(** A float that may be [float('inf')]. *)
Inductive xtime := Finite (q : Q) | Inf.

(** [a <= b] on such floats. *)
Definition xle_bool (a b : xtime) : bool :=
  match a, b with
  | Finite x, Finite y => Qle_bool x y
  | _, Inf => true
  | Inf, Finite _ => false
  end.

(** ** class Event, class Schedule *)

Section Schedule.
(** The callables that can be stored in an event. *)
Context {callback : Type}.

Record Event := { timestamp : Q; function : callback }.

(** [Event.__lt__] *)
Definition Event_lt (self other : Event) : bool :=
  QMicromega.Qlt_bool (timestamp self) (timestamp other).

Record Schedule := { now : Q; priority_queue : list Event }.

(** [Schedule.__init__] *)
Definition Schedule_init : Schedule := {| now := 0%Q; priority_queue := [] |}.

Definition add_event_at (self : Schedule) (timestamp : Q)
    (function : callback) : outcome Schedule :=
  match heapq.heappush Event_lt (priority_queue self)
          {| timestamp := timestamp; function := function |} with
  | Some pq => Ok {| now := now self; priority_queue := pq |}
  | None => Raise IndexError self
  end.

Definition add_event_after (self : Schedule) (interval : Q)
    (function : callback) : outcome Schedule :=
  add_event_at self (now self + interval)%Q function.

Definition next_event_time (self : Schedule) : xtime :=
  match priority_queue self with
  | e :: _ => Finite (timestamp e)
  | [] => Inf
  end.

(** The rest of the world the callables act on, and the dispatch of a
    callable: [call f schedule w] is [f(schedule)]. *)
Context {W : Type}.
Variable call : callback → Schedule → W → outcome (Schedule * W).

(** [Event.run] *)
Definition Event_run (self : Event) (schedule : Schedule) (w : W)
    : outcome (Schedule * W) :=
  call (function self) schedule w.

Definition run_next_event (self : Schedule) (w : W)
    : outcome (Schedule * W) :=
  match priority_queue self with
  | [] => Ok (self, w)
  | _ :: _ =>
      match heapq.heappop Event_lt (priority_queue self) with
      | None => Raise IndexError (self, w)
      | Some (event, pq) =>
          let self := {| now := now self; priority_queue := pq |} in
          let self := {| now := timestamp event;
                         priority_queue := priority_queue self |} in
          Event_run event self w
      end
  end.

(** The condition of the loop of [run_simulation]:
    [schedule.priority_queue and schedule.next_event_time() <= run_until]. *)
Definition loop_cond (run_until : xtime) (schedule : Schedule) : bool :=
  match priority_queue schedule with
  | [] => false
  | _ :: _ => xle_bool (next_event_time schedule) run_until
  end.

(** The [while] loop of [run_simulation]; [None] when [fuel] iterations
    did not reach the end of the loop. *)
Fixpoint run_loop (fuel : nat) (run_until : xtime) (schedule : Schedule)
    (w : W) : option (outcome (Schedule * W)) :=
  match fuel with
  | O => None
  | S fuel' =>
      if loop_cond run_until schedule then
        match run_next_event schedule w with
        | Ok (schedule, w) => run_loop fuel' run_until schedule w
        | Raise e st => Some (Raise e st)
        end
      else Some (Ok (schedule, w))
  end.
End Schedule.
Arguments Event : clear implicits.
Arguments Schedule : clear implicits.

(** ** class Queue *)

(** The bound methods the program schedules: [queue.end_service] and
    [airport.handle_arrival]. *)
Inductive callback := Queue_end_service | Airport_handle_arrival.

Record Queue := {
  queue_length : Z;
  in_service : Z;
  service_rate : Q;
  queue_length_history : list Z;
  time_history : list Q
}.

(** [Queue.__init__] *)
Definition Queue_init (service_rate : Q) : Queue :=
  {| queue_length := 0; in_service := 0; service_rate := service_rate;
     queue_length_history := []; time_history := [] |}.

Definition set_queue_length (self : Queue) (v : Z) : Queue :=
  {| queue_length := v; in_service := in_service self;
     service_rate := service_rate self;
     queue_length_history := queue_length_history self;
     time_history := time_history self |}.

Definition set_in_service (self : Queue) (v : Z) : Queue :=
  {| queue_length := queue_length self; in_service := v;
     service_rate := service_rate self;
     queue_length_history := queue_length_history self;
     time_history := time_history self |}.

Definition record_state (self : Queue) (time : Q) : Queue :=
  {| queue_length := queue_length self; in_service := in_service self;
     service_rate := service_rate self;
     queue_length_history :=
       queue_length_history self ++ [(queue_length self + in_service self)%Z];
     time_history := time_history self ++ [time] |}.

Definition start_service (self : Queue) (schedule : Schedule callback)
    : outcome (Queue * Schedule callback) :=
  if (0 <? queue_length self)%Z && (in_service self =? 0)%Z then
    let self := set_queue_length self (queue_length self - 1) in
    let self := set_in_service self 1 in
    let self := record_state self (now schedule) in
    if Qeq_bool (service_rate self) 0%Q then
      Raise ZeroDivisionError (self, schedule)
    else
      let service_time := (1 / service_rate self)%Q in
      match add_event_after schedule service_time Queue_end_service with
      | Ok schedule => Ok (self, schedule)
      | Raise e schedule => Raise e (self, schedule)
      end
  else Ok (self, schedule).

Definition arrival (self : Queue) (schedule : Schedule callback)
    : outcome (Queue * Schedule callback) :=
  let self := set_queue_length self (queue_length self + 1) in
  let self := record_state self (now schedule) in
  if (in_service self =? 0)%Z then start_service self schedule
  else Ok (self, schedule).

Definition end_service (self : Queue) (schedule : Schedule callback)
    : outcome (Queue * Schedule callback) :=
  let self := set_in_service self 0 in
  let self := record_state self (now schedule) in
  if (0 <? queue_length self)%Z then start_service self schedule
  else Ok (self, schedule).

(** ** random.expovariate *)

(** The global random source.  [source n] is the value of
    [-log(1.0 - random())] at the [n]-th call of [random()]. *)
Record Random := { source : nat → Q; position : nat }.

(** [random.expovariate(lambd)] is [-log(1.0 - random()) / lambd]: the
    draw is consumed, then the division may raise ([None]). *)
Definition expovariate (lambd : Q) (rng : Random) : option Q * Random :=
  let e := source rng (position rng) in
  let rng := {| source := source rng; position := S (position rng) |} in
  if Qeq_bool lambd 0%Q then (None, rng) else (Some (e / lambd)%Q, rng).

(** ** class Airport *)

Record Airport := { arrival_rate : Q; queue : Queue }.

(** [Airport.__init__] *)
Definition Airport_init (arrival_rate service_rate : Q) : Airport :=
  {| arrival_rate := arrival_rate; queue := Queue_init service_rate |}.

Definition set_queue (self : Airport) (q : Queue) : Airport :=
  {| arrival_rate := arrival_rate self; queue := q |}.

(** The objects next to the schedule: the airport (with its queue) and the
    random source. *)
Definition World : Type := Airport * Random.

Definition schedule_initial_arrival (self : Airport)
    (schedule : Schedule callback) (rng : Random)
    : outcome (Schedule callback * World) :=
  match expovariate (arrival_rate self) rng with
  | (None, rng) => Raise ZeroDivisionError (schedule, (self, rng))
  | (Some inter_arrival_time, rng) =>
      match add_event_after schedule inter_arrival_time
              Airport_handle_arrival with
      | Ok schedule => Ok (schedule, (self, rng))
      | Raise e schedule => Raise e (schedule, (self, rng))
      end
  end.

Definition handle_arrival (self : Airport) (schedule : Schedule callback)
    (rng : Random) : outcome (Schedule callback * World) :=
  match arrival (queue self) schedule with
  | Raise e (q, schedule) => Raise e (schedule, (set_queue self q, rng))
  | Ok (q, schedule) =>
      let self := set_queue self q in
      match expovariate (arrival_rate self) rng with
      | (None, rng) => Raise ZeroDivisionError (schedule, (self, rng))
      | (Some inter_arrival_time, rng) =>
          match add_event_after schedule inter_arrival_time
                  Airport_handle_arrival with
          | Ok schedule => Ok (schedule, (self, rng))
          | Raise e schedule => Raise e (schedule, (self, rng))
          end
      end
  end.

(** Calling a stored bound method with the schedule as its argument. *)
Definition call (f : callback) (schedule : Schedule callback) (w : World)
    : outcome (Schedule callback * World) :=
  let '(airport, rng) := w in
  match f with
  | Queue_end_service =>
      match end_service (queue airport) schedule with
      | Ok (q, schedule) => Ok (schedule, (set_queue airport q, rng))
      | Raise e (q, schedule) => Raise e (schedule, (set_queue airport q, rng))
      end
  | Airport_handle_arrival => handle_arrival airport schedule rng
  end.

(** ** run_simulation *)

(** The simulation up to the end of its [while] loop (the printing that
    follows only reads the final objects).  [None]: the loop needs more than
    [fuel] iterations. *)
Definition run_simulation (arrival_rate service_rate : Q) (run_until : xtime)
    (rng : Random) (fuel : nat) : option (outcome (Schedule callback * World)) :=
  let schedule := Schedule_init in
  let airport := Airport_init arrival_rate service_rate in
  match schedule_initial_arrival airport schedule rng with
  | Raise e st => Some (Raise e st)
  | Ok (schedule, (airport, rng)) =>
      run_loop call fuel run_until schedule (airport, rng)
  end.

(** * Specification vocabulary

    Invariants, observers of the loops and test fixtures the properties
    below are stated with. *)

(** ** The heap invariant of heapq *)

Module heap_inv.
Section heap_inv.
Context {A : Type}.
(** [lt a b] is Python's [a < b]. *)
Variable lt : A → A → bool.

(** [le a b]: [b] does not compare smaller than [a]. *)
Definition le (a b : A) : Prop := lt b a = false.

(** The invariant documented by [heapq]: [heap[k] <= heap[2*k+1]] and
    [heap[k] <= heap[2*k+2]], stated from the child's side. *)
Definition is_heap (h : list A) : Prop :=
  ∀ j x p, 0 < j → h !! j = Some x → h !! ((j - 1) / 2) = Some p → le p x.

(** A heap with a hole at [pos]: every edge that avoids [pos] is ordered,
    and the parent of [pos] bounds the children of [pos]. *)
Definition hole_inv (h : list A) (pos : nat) : Prop :=
  (∀ j x p, 0 < j → j ≠ pos → (j - 1) / 2 ≠ pos →
     h !! j = Some x → h !! ((j - 1) / 2) = Some p → le p x) ∧
  (∀ j x g, 0 < pos → 0 < j → (j - 1) / 2 = pos →
     h !! j = Some x → h !! ((pos - 1) / 2) = Some g → le g x).

(** [newitem] may be stored at [pos]: it bounds the children of [pos]. *)
Definition fits_above (newitem : A) (h : list A) (pos : nat) : Prop :=
  ∀ j x, 0 < j → (j - 1) / 2 = pos → h !! j = Some x → le newitem x.
End heap_inv.
End heap_inv.

(** ** Observers and invariants of a schedule *)

Section Observers.
Context {callback W : Type}.
Variable call :
  callback → Schedule callback → W → outcome (Schedule callback * W).
Implicit Types (s schedule : Schedule callback) (w : W).

(** The heap invariant of a schedule's [priority_queue]. *)
Definition pq_heap (pq : list (Event callback)) : Prop :=
  heap_inv.is_heap Event_lt pq.

(** No pending event lies before the clock. *)
Definition no_past s : Prop :=
  Forall (λ e, (now s <= timestamp e)%Q) (priority_queue s).

(** The schedule is a heap and nothing is pending in the past. *)
Definition causal s : Prop := pq_heap (priority_queue s) ∧ no_past s.

(** Handlers that respect causality, in worlds satisfying [Winv]: they leave
    the clock alone and schedule nothing before it. *)
Definition causal_handlers (Winv : W → Prop) : Prop :=
  ∀ f s w, Winv w → causal s →
    now (final (call f s w)).1 = now s ∧
    causal (final (call f s w)).1 ∧
    Winv (final (call f s w)).2.

(** Handlers that leave the schedule as it is and return normally. *)
Definition quiet_handlers : Prop :=
  ∀ f s w, ∃ w', call f s w = Ok (s, w').


(** Observer of the loop of [run_simulation]: the events its
    [run_next_event] calls pop, in order. *)
Fixpoint popped_by_loop (fuel : nat) (run_until : xtime) schedule w
    : list (Event callback) :=
  match fuel with
  | O => []
  | S fuel' =>
      if loop_cond run_until schedule then
        match heapq.heappop Event_lt (priority_queue schedule) with
        | None => []
        | Some (event, _) =>
            event ::
            match run_next_event call schedule w with
            | Ok (schedule, w) =>
                popped_by_loop fuel' run_until schedule w
            | Raise _ _ => []
            end
        end
      else []
  end.

(** Observer of the same loop: the objects at the top of the loop after
    [k] full iterations, if the loop runs that long. *)
Fixpoint loop_state (k : nat) (run_until : xtime) schedule w
    : option (Schedule callback * W) :=
  match k with
  | O => Some (schedule, w)
  | S k' =>
      if loop_cond run_until schedule then
        match run_next_event call schedule w with
        | Ok (schedule, w) => loop_state k' run_until schedule w
        | Raise _ _ => None
        end
      else None
  end.

(** Test driver: the clock read after each of [n] successive
    [run_next_event] calls (the calls stop at the first exception). *)
Fixpoint clock_trace (n : nat) schedule w : list Q :=
  match n with
  | O => []
  | S n' =>
      match run_next_event call schedule w with
      | Ok (schedule, w) => now schedule :: clock_trace n' schedule w
      | Raise _ (schedule, _) => [now schedule]
      end
  end.

(** Test driver: [add_event_at] for each event of a list, in order. *)
Fixpoint add_events schedule (evs : list (Event callback))
    : outcome (Schedule callback) :=
  match evs with
  | [] => Ok schedule
  | e :: evs' =>
      match add_event_at schedule (timestamp e) (function e) with
      | Ok schedule => add_events schedule evs'
      | Raise x schedule => Raise x schedule
      end
  end.
End Observers.

(** ** Reachable queue states *)

(** The three event handlers of a queue, as a test would call them. *)
Inductive queue_op := Arrival | StartService | EndService.

Definition apply_op (op : queue_op) (self : Queue)
    (schedule : Schedule callback) : outcome (Queue * Schedule callback) :=
  match op with
  | Arrival => arrival self schedule
  | StartService => start_service self schedule
  | EndService => end_service self schedule
  end.

(** Queue states reached from a fresh queue by any sequence of handler
    calls, each with any schedule, whether the call returns or raises. *)
Inductive reachable : Queue → Prop :=
  | reachable_init service_rate : reachable (Queue_init service_rate)
  | reachable_step self op schedule :
      reachable self →
      reachable (final (apply_op op self schedule)).1.

(** The queue objects on which [record_state] is called during one handler
    call, in call order: the instrumented twin of [apply_op]. *)
Definition start_service_samples (self : Queue) : list Queue :=
  if (0 <? queue_length self)%Z && (in_service self =? 0)%Z then
    [set_in_service (set_queue_length self (queue_length self - 1)) 1]
  else [].

Definition op_samples (op : queue_op) (self : Queue)
    (schedule : Schedule callback) : list Queue :=
  match op with
  | Arrival =>
      let self := set_queue_length self (queue_length self + 1) in
      self ::
      (let self := record_state self (now schedule) in
       if (in_service self =? 0)%Z then start_service_samples self else [])
  | StartService => start_service_samples self
  | EndService =>
      let self := set_in_service self 0 in
      self ::
      (let self := record_state self (now schedule) in
       if (0 <? queue_length self)%Z then start_service_samples self else [])
  end.

(** What holds between handler calls. *)
Definition Queue_inv (q : Queue) : Prop :=
  (0 ≤ queue_length q)%Z ∧
  (in_service q = 0%Z ∨ in_service q = 1%Z) ∧
  (in_service q = 0%Z → queue_length q = 0%Z).

(** ** Worlds of the simulation *)

(** [s'] is [s] with the same clock and some more pending events, each
    satisfying [P]. *)
Definition adds (P : Event callback → Prop) (s s' : Schedule callback)
    : Prop :=
  now s' = now s ∧
  (pq_heap (priority_queue s) → pq_heap (priority_queue s')) ∧
  ∃ added, priority_queue s' ≡ₚ added ++ priority_queue s ∧ Forall P added.

(** Positive rates and non-negative draws. *)
Definition Winv (w : World) : Prop :=
  (0 < arrival_rate w.1)%Q ∧ (0 < service_rate (queue w.1))%Q ∧
  ∀ n, (0 <= source w.2 n)%Q.

(** ** Fixtures *)

(** A random source that always draws 1, the source after one draw, and the
    world of a fresh airport with both rates 1. *)
Definition unit_source : Random := {| source := λ _, 1%Q; position := 0 |}.

Definition advance (rng : Random) : Random :=
  {| source := source rng; position := S (position rng) |}.

Definition unit_world : World := (Airport_init 1 1, unit_source).

(** A schedule whose clock has reached 5 (one event pushed at 5 and run),
    and the world next to it. *)
Definition schedule_at_5 : Schedule callback :=
  (final (run_next_event call
     (final (add_event_at Schedule_init 5 Queue_end_service)) unit_world)).1.

Definition world_at_5 : World :=
  (final (run_next_event call
     (final (add_event_at Schedule_init 5 Queue_end_service)) unit_world)).2.

(** [schedule_at_5] after a later [add_event_at] with timestamp 3. *)
Definition late_schedule : Schedule callback :=
  final (add_event_at schedule_at_5 3 Queue_end_service).

(** The schedule of [run_simulation 1 1] when its loop starts. *)
Definition first_arrival_schedule : Schedule callback :=
  (final (schedule_initial_arrival (Airport_init 1 1) Schedule_init
            unit_source)).1.

(** A world that logs the tag of each event as it runs. *)
Definition log_call (f : nat) (s : Schedule nat) (log : list nat)
    : outcome (Schedule nat * list nat) :=
  Ok (s, log ++ [f]).

(** [n] events with the same timestamp, tagged by insertion rank. *)
Definition tied (n : nat) : list (Event nat) :=
  map (λ i, {| timestamp := 1; function := i |}) (seq 0 n).

(** The tags in the order the events run, after pushing [evs] in order on
    a new schedule and running until nothing is pending. *)
Definition pop_order (evs : list (Event nat)) : option (list nat) :=
  match add_events Schedule_init evs with
  | Ok s =>
      match run_loop log_call (S (length evs)) Inf s [] with
      | Some (Ok (_, log)) => Some log
      | _ => None
      end
  | Raise _ _ => None
  end.

(** Three service completions pushed at 2, 1 and 3. *)
Definition three_pending : Schedule callback :=
  final (add_events Schedule_init
           [ {| timestamp := 2; function := Queue_end_service |};
             {| timestamp := 1; function := Queue_end_service |};
             {| timestamp := 3; function := Queue_end_service |} ]).

(** ** Pending events by handler, shape of the histories *)

#[global] Instance callback_eq_dec : EqDecision callback.
Proof. solve_decision. Defined.

(** The number of pending events that call [f]. *)
Definition pending (f : callback) (s : Schedule callback) : nat :=
  length (filter (λ e, function e = f) (priority_queue s)).

(** In the world of [run_simulation]: one arrival is pending, and the
    number of pending service completions is the server count, 0 or 1. *)
Definition sim_inv (s : Schedule callback) (w : World) : Prop :=
  pending Airport_handle_arrival s = 1 ∧
  Z.of_nat (pending Queue_end_service s) = in_service (queue w.1) ∧
  (in_service (queue w.1) = 0%Z ∨ in_service (queue w.1) = 1%Z).

(** Consecutive samples differ by at most one. *)
Definition unit_steps (l : list Z) : Prop :=
  ∀ i a b, l !! i = Some a → l !! S i = Some b → (-1 ≤ b - a ≤ 1)%Z.

(** The samples are taken in time order, none after the clock. *)
Definition timed (s : Schedule callback) (q : Queue) : Prop :=
  StronglySorted Qle (time_history q) ∧
  Forall (λ t, (t <= now s)%Q) (time_history q).

(** A queue with one customer waiting and the server idle, as [arrival]
    leaves it before it cascades into [start_service]. *)
Definition one_waiting (service_rate : Q) : Queue :=
  set_queue_length (Queue_init service_rate) 1.

(** The histories [th], [qlh] of a queue whose occupancy is [occ]. *)
Definition hist_ok (th : list Q) (qlh : list Z) (occ : Z) : Prop :=
  length th = length qlh ∧ Forall (λ o, (0 ≤ o)%Z) qlh ∧
  default 0%Z (last qlh) = occ ∧ unit_steps qlh.

(** The loop invariant of a simulation with positive rates and
    non-negative draws. *)
Definition timed_inv (s : Schedule callback) (w : World) : Prop :=
  causal s ∧ Winv w ∧ timed s (queue w.1).

(** The occupancy of a queue: waiting plus in service. *)
Definition occupancy (q : Queue) : Z := (queue_length q + in_service q)%Z.

(** The number of events of a list that call [f]. *)
Definition calls (f : callback) (l : list (Event callback)) : nat :=
  length (filter (λ e, function e = f) l).

(** The queue after two arrivals and one service completion. *)
Definition busy_queue : Queue :=
  (final (apply_op EndService
     (final (apply_op Arrival
        (final (apply_op Arrival (Queue_init 2) Schedule_init)).1
        Schedule_init)).1
     Schedule_init)).1.

(** * Properties *)

(** ** Index arithmetic of the implicit binary tree *)

Lemma parent_child (j p : nat) :
  0 < j → (j - 1) / 2 = p ↔ (j = 2 * p + 1 ∨ j = 2 * p + 2).
Proof.
  intros Hj. pose proof (Nat.div_mod_eq (j - 1) 2).
  pose proof (Nat.mod_upper_bound (j - 1) 2). lia.
Qed.

Lemma parent_lt (j : nat) : 0 < j → (j - 1) / 2 < j.
Proof. intros Hj. pose proof (proj1 (parent_child j _ Hj) eq_refl). lia. Qed.

(** ** Correctness of heapq *)

Module heapq_spec.
Import heapq heap_inv.

#[local] Arguments Nat.div : simpl never.
#[local] Arguments Nat.mul : simpl never.
#[local] Arguments Nat.ltb : simpl never.

(** Splits every hypothesis that reads an updated list. *)
Ltac split_lookups :=
  repeat match goal with
  | H : <[_:=_]> _ !! _ = Some ?y |- _ =>
      apply list_lookup_insert_Some in H;
      destruct H as [(? & ? & ?) | (? & ?)]; [try subst y|]
  end.

Section facts.
Context {A : Type}.
Variable lt : A → A → bool.
Local Abbreviation le := (heap_inv.le lt).
Local Abbreviation is_heap := (heap_inv.is_heap lt).
Local Abbreviation hole_inv := (heap_inv.hole_inv lt).
Local Abbreviation fits_above := (heap_inv.fits_above lt).

(** [<] is a strict weak order (true of [Event.__lt__]). *)
Hypothesis lt_asym : ∀ a b, lt a b = true → lt b a = false.
Hypothesis le_trans : ∀ a b c, le a b → le b c → le a c.

Lemma setitem_Some (h : list A) i x :
  i < length h → setitem h i x = Some (<[i:=x]> h).
Proof. intros. unfold setitem. by rewrite decide_True. Qed.

Lemma list_pop_snoc (l : list A) x : list_pop (l ++ [x]) = Some (x, l).
Proof. unfold list_pop. by rewrite last_snoc, removelast_last. Qed.

Lemma le_refl a : le a a.
Proof using lt_asym.
  unfold le. destruct (lt a a) eqn:E; [|done]. by rewrite (lt_asym _ _ E) in E.
Qed.

(** Filling the hole closes the heap. *)
Lemma place_heap (h : list A) pos newitem :
  pos < length h → hole_inv h pos → fits_above newitem h pos →
  (∀ p, 0 < pos → h !! ((pos - 1) / 2) = Some p → le p newitem) →
  is_heap (<[pos:=newitem]> h).
Proof.
  intros Hlen [Hedge _] Hfit Hpar j x p Hj Hx Hp.
  pose proof (parent_lt j Hj). unfold fits_above in Hfit.
  split_lookups; try lia; subst; eauto.
Qed.

(** One iteration of the loop of [_siftdown]. *)
Lemma siftdown_step (h : list A) pos newitem parent :
  0 < pos → pos < length h →
  hole_inv h pos → fits_above newitem h pos →
  h !! ((pos - 1) / 2) = Some parent → lt newitem parent = true →
  hole_inv (<[pos:=parent]> h) ((pos - 1) / 2) ∧
  fits_above newitem (<[pos:=parent]> h) ((pos - 1) / 2).
Proof using lt_asym le_trans.
  intros Hpos Hlen [Hedge Hgrand] Hfit Hparent Hlt.
  pose proof (parent_lt pos Hpos) as Hpp.
  assert (le newitem parent) as Hnp by (by apply lt_asym).
  split; [split|].
  - intros j x p Hj Hne1 Hne2 Hx Hp. pose proof (parent_lt j Hj).
    split_lookups; try lia; subst; eauto; congruence.
  - intros j x g Hpar Hj Hjp Hx Hg.
    pose proof (parent_lt _ Hpar).
    split_lookups; try lia;
      (assert (le g parent) as Hgp
         by (eapply (Hedge ((pos - 1) / 2)); eauto; lia)); [done|].
    eapply le_trans; [exact Hgp|].
    eapply (Hedge j); eauto; try lia. by rewrite Hjp.
  - intros j x Hj Hjp Hx.
    split_lookups; [done|].
    eapply le_trans; [exact Hnp|].
    eapply (Hedge j); eauto; try lia. by rewrite Hjp.
Qed.

(** The loop of [_siftdown] never fails, permutes the list with
    [newitem] in the hole, and closes a heap with a hole. *)
Lemma siftdown_loop_spec fuel : ∀ (h : list A) pos newitem,
  pos ≤ fuel → pos < length h →
  ∃ h', siftdown_loop lt fuel h 0 pos newitem = Some h' ∧
        h' ≡ₚ <[pos:=newitem]> h ∧
        (hole_inv h pos → fits_above newitem h pos → is_heap h').
Proof using lt_asym le_trans.
  induction fuel as [|fuel IH]; intros h pos newitem Hfuel Hlen.
  - assert (pos = 0) as -> by lia. simpl.
    rewrite setitem_Some by done. eexists; split; [done|]. split; [done|].
    intros. apply place_heap; auto. intros; lia.
  - simpl. destruct (0 <? pos) eqn:Hpos.
    2:{ apply Nat.ltb_ge in Hpos. rewrite setitem_Some by done.
        eexists; split; [done|]. split; [done|].
        intros. apply place_heap; auto. intros; lia. }
    apply Nat.ltb_lt in Hpos. pose proof (parent_lt pos Hpos) as Hpp.
    destruct (lookup_lt_is_Some_2 h ((pos - 1) / 2)) as [parent Hparent];
      [lia|].
    rewrite Hparent. simpl. destruct (lt newitem parent) eqn:Hlt.
    + rewrite setitem_Some by done. simpl.
      destruct (IH (<[pos:=parent]> h) ((pos - 1) / 2) newitem)
        as (h' & Hrun & Hperm & Hheap); try lia.
      { rewrite length_insert. lia. }
      exists h'. split; [done|]. split.
      * rewrite Hperm.
        rewrite <- (list_insert_insert_eq h pos parent newitem).
        apply Permutation_insert_swap.
        -- by apply list_lookup_insert_eq.
        -- rewrite list_lookup_insert_ne by lia. done.
      * intros Hinv Hfit.
        destruct (siftdown_step h pos newitem parent); auto.
    + rewrite setitem_Some by done.
      eexists; split; [done|]. split; [done|].
      intros. apply place_heap; auto. intros p _ Hp. by simplify_eq.
Qed.

(** The hole invariant does not read the hole. *)
Lemma hole_inv_insert (h : list A) pos y :
  hole_inv h pos → hole_inv (<[pos:=y]> h) pos.
Proof.
  intros [Hedge Hgrand]. split.
  - intros j x p Hj Hne1 Hne2 Hx Hp.
    rewrite list_lookup_insert_ne in Hx, Hp by done. eauto.
  - intros j x g Hpos Hj Hjp Hx Hg. pose proof (parent_lt j Hj).
    pose proof (parent_lt pos Hpos).
    rewrite list_lookup_insert_ne in Hx, Hg by lia. eauto.
Qed.

(** A leaf has no child to bound. *)
Lemma fits_above_leaf (h : list A) pos newitem :
  length h ≤ 2 * pos + 1 → fits_above newitem h pos.
Proof.
  intros Hleaf j x Hj Hjp Hx. apply lookup_lt_Some in Hx.
  apply parent_child in Hjp; lia.
Qed.

(** One iteration of the loop of [_siftup]: the smaller child [c] moves
    into the hole. *)
Lemma siftup_step (h : list A) pos c vc :
  0 < c → (c - 1) / 2 = pos → h !! c = Some vc →
  (∀ j x, 0 < j → (j - 1) / 2 = pos → h !! j = Some x → le vc x) →
  hole_inv h pos → hole_inv (<[pos:=vc]> h) c.
Proof.
  intros Hc Hcp Hvc Hmin [Hedge Hgrand].
  pose proof (parent_lt c Hc) as Hlt.
  split.
  - intros j x p Hj Hne1 Hne2 Hx Hp. pose proof (parent_lt j Hj).
    split_lookups; try lia.
    + eapply Hmin; eauto.
    + eapply (Hgrand c); eauto; try lia. by subst.
    + eapply (Hedge j); eauto.
  - intros j x g _ Hj Hjc Hx Hg. pose proof (parent_lt j Hj).
    rewrite Hcp in Hg.
    split_lookups; try lia.
    eapply (Hedge j); eauto; try lia. by rewrite Hjc.
Qed.

Lemma siftup_loop_spec fuel : ∀ (h : list A) pos newitem,
  length h ≤ fuel + pos → pos < length h →
  ∃ h' pos', siftup_loop lt fuel h (length h) pos = Some (h', pos') ∧
    length h' = length h ∧ pos' < length h ∧ length h ≤ 2 * pos' + 1 ∧
    <[pos':=newitem]> h' ≡ₚ <[pos:=newitem]> h ∧
    (hole_inv h pos → hole_inv h' pos').
Proof using lt_asym.
  induction fuel as [|fuel IH]; intros h pos newitem Hfuel Hlen; [lia|].
  simpl. destruct (2 * pos + 1 <? length h) eqn:Hchild.
  2:{ apply Nat.ltb_ge in Hchild. exists h, pos. split_and!; auto. }
  apply Nat.ltb_lt in Hchild.
  destruct (lookup_lt_is_Some_2 h (2 * pos + 1)) as [l Hl]; [lia|].
  (* the smaller child *)
  assert (∃ c vc,
    (if 2 * pos + 1 + 1 <? length h
     then l ← h !! (2 * pos + 1); r ← h !! (2 * pos + 1 + 1);
          Some (if negb (lt l r) then 2 * pos + 1 + 1 else 2 * pos + 1)
     else Some (2 * pos + 1)) = Some c ∧
    0 < c ∧ (c - 1) / 2 = pos ∧ h !! c = Some vc ∧
    (∀ j x, 0 < j → (j - 1) / 2 = pos → h !! j = Some x → le vc x))
    as (c & vc & -> & Hc & Hcp & Hvc & Hmin).
  { destruct (2 * pos + 1 + 1 <? length h) eqn:Hright.
    - apply Nat.ltb_lt in Hright.
      destruct (lookup_lt_is_Some_2 h (2 * pos + 1 + 1)) as [r Hr]; [lia|].
      rewrite Hl, Hr. simpl. destruct (lt l r) eqn:Hlr; simpl.
      + exists (2 * pos + 1), l. split_and!; auto; try lia.
        { apply parent_child; lia. }
        intros j x Hj Hjp Hx. apply parent_child in Hjp; [|done].
        destruct Hjp as [->| ->];
          [|replace (2 * pos + 2) with (2 * pos + 1 + 1) in Hx by lia];
          simplify_eq; [apply le_refl|by apply lt_asym].
      + exists (2 * pos + 1 + 1), r. split_and!; auto; try lia.
        { apply parent_child; lia. }
        intros j x Hj Hjp Hx. apply parent_child in Hjp; [|done].
        destruct Hjp as [->| ->];
          [|replace (2 * pos + 2) with (2 * pos + 1 + 1) in Hx by lia];
          simplify_eq; [done|apply le_refl].
    - apply Nat.ltb_ge in Hright.
      exists (2 * pos + 1), l. split_and!; auto; try lia.
      { apply parent_child; lia. }
      intros j x Hj Hjp Hx. apply parent_child in Hjp; [|done].
      pose proof (lookup_lt_Some _ _ _ Hx).
      destruct Hjp as [->| ->]; simplify_eq; [apply le_refl|lia]. }
  simpl. rewrite Hvc. simpl. rewrite setitem_Some by done. simpl.
  pose proof (parent_lt c Hc) as Hpc.
  pose proof (lookup_lt_Some _ _ _ Hvc) as Hclen.
  destruct (IH (<[pos:=vc]> h) c newitem) as
    (h' & pos' & Hrun & Hlen' & Hpos' & Hleaf & Hperm & Hinv');
    rewrite ?length_insert; try lia.
  rewrite length_insert in *.
  exists h', pos'. split_and!; auto.
  - rewrite Hperm.
    rewrite <- (list_insert_insert_eq h pos vc newitem).
    apply Permutation_insert_swap.
    + by apply list_lookup_insert_eq.
    + rewrite list_lookup_insert_ne by lia. done.
  - intros Hinv. apply Hinv'. by apply siftup_step.
Qed.

#[local] Arguments siftup_loop : simpl never.
#[local] Arguments siftdown_loop : simpl never.
#[local] Arguments setitem : simpl never.

Lemma is_heap_nil : is_heap [].
Proof. intros j x p _ Hx. done. Qed.

(** [heap[0]] is a smallest item. *)
Lemma heap_root_min (h : list A) m :
  is_heap h → h !! 0 = Some m → ∀ j x, h !! j = Some x → le m x.
Proof using lt_asym le_trans.
  intros Hheap Hm j. induction (lt_wf j) as [j _ IH]. intros x Hx.
  destruct (decide (j = 0)) as [->|Hj].
  - simplify_eq. apply le_refl.
  - assert (0 < j) as Hpos by lia. pose proof (parent_lt j Hpos) as Hlt.
    pose proof (lookup_lt_Some _ _ _ Hx).
    destruct (lookup_lt_is_Some_2 h ((j - 1) / 2)) as [p Hp]; [lia|].
    eapply le_trans; [by eapply IH|]. by eapply (Hheap j).
Qed.

Theorem heappush_spec (h : list A) x :
  ∃ h', heappush lt h x = Some h' ∧ h' ≡ₚ x :: h ∧
        (is_heap h → is_heap h').
Proof using lt_asym le_trans.
  unfold heappush, _siftdown. rewrite length_app. simpl.
  replace (length h + 1 - 1) with (length h) by lia.
  rewrite list_lookup_middle by done. simpl.
  destruct (siftdown_loop_spec (length h) (h ++ [x]) (length h) x)
    as (h' & Hrun & Hperm & Hheap); [done|rewrite length_app; simpl; lia|].
  exists h'. split; [done|]. split.
  - rewrite Hperm, list_insert_id by (by apply list_lookup_middle).
    by rewrite Permutation_app_comm.
  - intros Hh. apply Hheap.
    + split.
      * intros j y p Hj Hne1 Hne2 Hy Hp.
        pose proof (lookup_lt_Some _ _ _ Hy) as Hlt.
        pose proof (parent_lt j Hj).
        rewrite length_app in Hlt. simpl in Hlt.
        rewrite lookup_app_l in Hy, Hp by lia. eauto.
      * intros j y g _ Hj Hjp Hy _.
        pose proof (lookup_lt_Some _ _ _ Hy) as Hlt.
        rewrite length_app in Hlt. simpl in Hlt.
        apply parent_child in Hjp; lia.
    + apply fits_above_leaf. rewrite length_app. simpl. lia.
Qed.

Theorem heappop_spec (h : list A) :
  h ≠ [] →
  ∃ m h', heappop lt h = Some (m, h') ∧ h !! 0 = Some m ∧
          h ≡ₚ m :: h' ∧ (is_heap h → is_heap h').
Proof using lt_asym le_trans.
  intros Hne. destruct (exists_last Hne) as (init & lastelt & ->).
  unfold heappop. rewrite list_pop_snoc. simpl.
  destruct init as [|a t].
  { exists lastelt, []. split_and!; auto. intros _. apply is_heap_nil. }
  simpl. unfold _siftup. simpl.
  change (S (length t)) with (length (lastelt :: t)).
  destruct (siftup_loop_spec (length (lastelt :: t)) (lastelt :: t) 0
              lastelt)
    as (h2 & pos' & Hrun & Hlen2 & Hpos' & Hleaf & Hperm2 & Hinv2);
    [simpl; lia..|].
  rewrite Hrun. simpl in Hlen2, Hpos', Hleaf, Hperm2. simpl.
  rewrite setitem_Some by lia. simpl.
  unfold _siftdown. rewrite list_lookup_insert_eq by lia. simpl.
  destruct (siftdown_loop_spec pos' (<[pos':=lastelt]> h2) pos' lastelt)
    as (h4 & Hrun4 & Hperm4 & Hheap4); [done|rewrite length_insert; lia|].
  rewrite Hrun4. simpl.
  exists a, h4. split_and!; auto.
  - rewrite Hperm4, list_insert_insert_eq, Hperm2.
    by rewrite Permutation_app_comm.
  - intros Hh. apply Hheap4.
    + apply hole_inv_insert, Hinv2. split; [|intros; lia].
      intros j y p Hj Hne1 Hne2 Hy Hp. pose proof (parent_lt j Hj).
      apply (Hh j); [done| |].
      * pose proof (lookup_lt_Some _ _ _ Hy) as Hlt. simpl in Hlt.
        change (a :: t ++ [lastelt]) with ((a :: t) ++ [lastelt]).
        rewrite lookup_app_l by (simpl; lia).
        destruct j; [lia|done].
      * pose proof (lookup_lt_Some _ _ _ Hp) as Hlt. simpl in Hlt.
        change (a :: t ++ [lastelt]) with ((a :: t) ++ [lastelt]).
        rewrite lookup_app_l by (simpl; lia).
        destruct ((j - 1) / 2); [lia|done].
    + apply fits_above_leaf. rewrite length_insert. lia.
Qed.
End facts.
End heapq_spec.

(** ** Events are ordered by timestamp *)

Section Event_order.
Context {callback : Type}.
Implicit Types a b c : Event callback.

Lemma Event_le_iff a b :
  heap_inv.le Event_lt a b ↔ (timestamp a <= timestamp b)%Q.
Proof.
  unfold heap_inv.le, Event_lt.
  rewrite <- not_true_iff_false, QMicromega.Qlt_bool_iff. split; lra.
Qed.

Lemma Event_lt_asym a b : Event_lt a b = true → Event_lt b a = false.
Proof.
  intros H. apply QMicromega.Qlt_bool_iff in H.
  apply (Event_le_iff a b). lra.
Qed.

Lemma Event_le_trans a b c :
  heap_inv.le Event_lt a b → heap_inv.le Event_lt b c →
  heap_inv.le Event_lt a c.
Proof. rewrite !Event_le_iff. lra. Qed.

Lemma heappush_Event pq (e : Event callback) :
  ∃ pq', heapq.heappush Event_lt pq e = Some pq' ∧ pq' ≡ₚ e :: pq ∧
         (pq_heap pq → pq_heap pq').
Proof.
  apply heapq_spec.heappush_spec;
    [apply Event_lt_asym | apply Event_le_trans].
Qed.

Lemma heappop_Event pq :
  pq ≠ [] →
  ∃ (m : Event callback) pq',
    heapq.heappop Event_lt pq = Some (m, pq') ∧ pq !! 0 = Some m ∧
    pq ≡ₚ m :: pq' ∧ (pq_heap pq → pq_heap pq').
Proof.
  apply heapq_spec.heappop_spec;
    [apply Event_lt_asym | apply Event_le_trans].
Qed.

(** In a heap the first event is an earliest one. *)
Lemma pq_heap_head pq (m : Event callback) :
  pq_heap pq → pq !! 0 = Some m →
  Forall (λ e, (timestamp m <= timestamp e)%Q) pq.
Proof.
  intros Hh Hm. apply Forall_lookup. intros j x Hx.
  apply Event_le_iff.
  eapply heapq_spec.heap_root_min; eauto;
    [apply Event_lt_asym | apply Event_le_trans].
Qed.

(** *** Schedule operations *)

Lemma add_event_at_spec (s : Schedule callback) t f :
  ∃ pq', add_event_at s t f = Ok {| now := now s; priority_queue := pq' |} ∧
         pq' ≡ₚ {| timestamp := t; function := f |} :: priority_queue s ∧
         (pq_heap (priority_queue s) → pq_heap pq').
Proof.
  unfold add_event_at.
  destruct (heappush_Event (priority_queue s)
              {| timestamp := t; function := f |}) as (pq' & -> & ? & ?).
  eauto.
Qed.

Context {W : Type}.
Variable call :
  callback → Schedule callback → W → outcome (Schedule callback * W).

Lemma run_next_event_empty (s : Schedule callback) (w : W) :
  priority_queue s = [] → run_next_event call s w = Ok (s, w).
Proof. unfold run_next_event. by intros ->. Qed.

Lemma run_next_event_spec (s : Schedule callback) (w : W) :
  priority_queue s ≠ [] →
  ∃ m pq',
    heapq.heappop Event_lt (priority_queue s) = Some (m, pq') ∧
    priority_queue s !! 0 = Some m ∧
    priority_queue s ≡ₚ m :: pq' ∧
    (pq_heap (priority_queue s) → pq_heap pq') ∧
    run_next_event call s w =
      call (function m) {| now := timestamp m; priority_queue := pq' |} w.
Proof.
  intros Hne.
  destruct (heappop_Event _ Hne) as (m & pq' & Hpop & Hm & Hperm & Hheap).
  exists m, pq'. split_and!; auto.
  unfold run_next_event. rewrite Hpop.
  destruct (priority_queue s); done.
Qed.
End Event_order.

(** ** The single-server queue *)

Lemma Qeq_bool_false (x y : Q) : ¬ (x == y)%Q → Qeq_bool x y = false.
Proof.
  intros H. destruct (Qeq_bool x y) eqn:E; [|done].
  by apply Qeq_bool_iff in E.
Qed.

(** Case analysis over the branches of a handler. *)
Ltac handler_cases :=
  unfold apply_op, arrival, end_service, start_service,
    op_samples, start_service_samples;
  simpl;
  repeat match goal with
  | |- context [(0 <? ?x)%Z] => destruct (Z.ltb_spec 0 x); simpl
  | |- context [(?x =? 0)%Z] => destruct (Z.eqb_spec x 0); simpl
  | |- context [Qeq_bool ?x ?y] => destruct (Qeq_bool x y) eqn:?; simpl
  | |- context [add_event_after ?s ?i ?f] =>
      destruct (add_event_after s i f) eqn:?; simpl
  end.

Lemma Queue_inv_step op self schedule :
  Queue_inv self → Queue_inv (final (apply_op op self schedule)).1.
Proof.
  unfold Queue_inv. intros (H1 & H2 & H3).
  destruct op; handler_cases; lia.
Qed.

Lemma reachable_inv q : reachable q → Queue_inv q.
Proof.
  induction 1 as [sr|self op schedule _ IH].
  - unfold Queue_inv. simpl. lia.
  - by apply Queue_inv_step.
Qed.

(** The recorded histories grow by exactly the samples read. *)
Lemma op_samples_history op self schedule :
  let q' := (final (apply_op op self schedule)).1 in
  queue_length_history q' =
    queue_length_history self ++
    map (λ q, (queue_length q + in_service q)%Z)
      (op_samples op self schedule) ∧
  time_history q' =
    time_history self ++
    map (λ _, now schedule) (op_samples op self schedule).
Proof.
  destruct op; handler_cases;
    rewrite <- ?app_assoc, ?app_nil_r; simpl; try done; lia.
Qed.

(** C10: when the guard of [start_service] fails because nobody waits or
    the server is busy, the call changes neither the queue (counters, rate
    and both histories) nor the schedule, and returns normally. *)
Theorem start_service_noop (self : Queue) (schedule : Schedule callback) :
  queue_length self = 0%Z ∨ in_service self = 1%Z →
  start_service self schedule = Ok (self, schedule).
Proof.
  intros [H|H]; unfold start_service; rewrite H; [done|].
  by rewrite andb_false_r.
Qed.

Lemma start_service_noop_witness :
  (queue_length (Queue_init 2) = 0%Z ∨ in_service (Queue_init 2) = 1%Z) ∧
  start_service (Queue_init 2) Schedule_init = Ok (Queue_init 2, Schedule_init).
Proof.
  split; [left; reflexivity|].
  apply (start_service_noop (Queue_init 2) Schedule_init).
  left; reflexivity.
Defined.

(** C5 fails as stated: with one customer waiting, an idle server and a
    service rate of 0, the precondition holds but [start_service] raises
    [ZeroDivisionError] after it has updated the counters and recorded the
    sample, and no [end_service] event is scheduled. *)
Lemma start_service_raises_at_rate_zero :
  (0 < queue_length (one_waiting 0))%Z ∧ in_service (one_waiting 0) = 0%Z ∧
  start_service (one_waiting 0) Schedule_init =
    Raise ZeroDivisionError
      ({| queue_length := 0; in_service := 1; service_rate := 0;
          queue_length_history := [1%Z]; time_history := [0%Q] |},
       Schedule_init) ∧
  ∀ st, start_service (one_waiting 0) Schedule_init ≠ Ok st.
Proof.
  split; [reflexivity|]. split; [reflexivity|]. split; [reflexivity|].
  intros st H. discriminate H.
Qed.


(** X8: with somebody waiting, an idle server and a zero service rate,
    [start_service] raises [ZeroDivisionError] after it has taken the
    customer from the waiting line, marked the server busy and recorded the
    sample; no [end_service] event is scheduled. *)
Lemma start_service_zero_rate (self : Queue) (schedule : Schedule callback) :
  (0 < queue_length self)%Z → in_service self = 0%Z →
  (service_rate self == 0)%Q →
  start_service self schedule =
    Raise ZeroDivisionError
      (record_state
         (set_in_service
            (set_queue_length self (queue_length self - 1)) 1)
         (now schedule),
       schedule).
Proof.
  intros Hq Hs Hrate. unfold start_service.
  rewrite (proj2 (Z.ltb_lt _ _) Hq), Hs. simpl.
  by rewrite (proj2 (Qeq_bool_iff _ _) Hrate).
Qed.


(** C6: in every queue state reached from a fresh queue by handler calls
    the server count is 0 or 1, and so it is in each queue object a sample
    is recorded from: the histories grow by exactly the samples read by
    [record_state], and each of them has [in_service] 0 or 1. *)
Theorem in_service_zero_or_one (q : Queue) :
  reachable q →
  (in_service q = 0%Z ∨ in_service q = 1%Z) ∧
  ∀ op schedule,
    let q' := (final (apply_op op q schedule)).1 in
    queue_length_history q' =
      queue_length_history q ++
      map (λ s, (queue_length s + in_service s)%Z)
        (op_samples op q schedule) ∧
    time_history q' =
      time_history q ++
      map (λ _, now schedule) (op_samples op q schedule) ∧
    Forall (λ s, in_service s = 0%Z ∨ in_service s = 1%Z)
      (op_samples op q schedule).
Proof.
  intros Hreach. destruct (reachable_inv q Hreach) as (H1 & H2 & H3).
  split; [done|]. intros op schedule q'.
  destruct (op_samples_history op q schedule) as [Hq Ht].
  split; [done|]. split; [done|]. clear Hq Ht q'.
  destruct op; handler_cases; repeat constructor; simpl; lia.
Qed.

Lemma in_service_zero_or_one_witness :
  let q := (final (apply_op Arrival (Queue_init 2) Schedule_init)).1 in
  reachable q ∧ (in_service q = 0%Z ∨ in_service q = 1%Z).
Proof.
  assert (reachable (final (apply_op Arrival (Queue_init 2) Schedule_init)).1)
    as H by (apply reachable_step, reachable_init).
  split; [exact H|]. exact (proj1 (in_service_zero_or_one _ H)).
Defined.

(** C7: from a reachable queue state, an [end_service] call whose test
    [queue_length > 0] fails (no cascade into [start_service]) leaves nobody
    waiting; after any [end_service] call, cascade included, an idle
    server implies an empty waiting line; and so it does in every reachable
    state, which is a state between two handler calls. *)
Theorem end_service_no_waiting (q : Queue) (schedule : Schedule callback) :
  reachable q →
  let q' := (final (end_service q schedule)).1 in
  ((0 <? queue_length q)%Z = false → queue_length q' = 0%Z) ∧
  (in_service q' = 0%Z → queue_length q' = 0%Z) ∧
  (in_service q = 0%Z → queue_length q = 0%Z).
Proof.
  intros Hreach q'. subst q'.
  destruct (reachable_inv q Hreach) as (H1 & H2 & H3).
  split; [intros Hc; apply Z.ltb_ge in Hc|split; [|done]];
    handler_cases; lia.
Qed.

Lemma end_service_no_waiting_witness :
  let q := (final (apply_op Arrival (Queue_init 2) Schedule_init)).1 in
  let q' := (final (end_service q Schedule_init)).1 in
  reachable q ∧
  ((0 <? queue_length q)%Z = false → queue_length q' = 0%Z) ∧
  (in_service q' = 0%Z → queue_length q' = 0%Z) ∧
  (in_service q = 0%Z → queue_length q = 0%Z).
Proof.
  assert (reachable (final (apply_op Arrival (Queue_init 2) Schedule_init)).1)
    as H by (apply reachable_step, reachable_init).
  split; [exact H|]. exact (end_service_no_waiting _ Schedule_init H).
Defined.

(** ** Scheduling without a time check *)

(** C3 fails as stated: on a schedule whose clock has reached 5 (an event
    pushed at 5 was run), [add_event_at] with timestamp 3 returns normally
    and the event is pending. *)
Lemma add_event_at_past_accepted :
  (∃ s0, add_event_at Schedule_init 5 Queue_end_service = Ok s0 ∧
         run_next_event call s0 unit_world = Ok (schedule_at_5, world_at_5)) ∧
  now schedule_at_5 = 5%Q ∧ (3 < now schedule_at_5)%Q ∧
  add_event_at schedule_at_5 3 Queue_end_service =
    Ok {| now := 5;
          priority_queue :=
            [{| timestamp := 3; function := Queue_end_service |}] |}.
Proof.
  split; [eexists; split; reflexivity|].
  split; [reflexivity|]. split; reflexivity.
Qed.

(** C3, amended: [add_event_at] checks nothing.  For every schedule and
    every timestamp, earlier than [now] or not, it returns normally, leaves
    the clock alone and adds exactly the new event to the pending ones. *)
Theorem add_event_at_always_inserts {callback} (s : Schedule callback) t f :
  ∃ pq',
    add_event_at s t f = Ok {| now := now s; priority_queue := pq' |} ∧
    pq' ≡ₚ {| timestamp := t; function := f |} :: priority_queue s.
Proof.
  destruct (add_event_at_spec s t f) as (pq' & H1 & H2 & _). eauto.
Qed.

(** ** One arrival, run to completion *)

(** C9 fails as stated: with service rate 1, one [arrival] at clock 0 and a
    run to completion record three samples, not two: [arrival] records
    (0, 1), the [start_service] it cascades into records (0, 1) again, and
    [end_service] records (1, 0). *)
Lemma single_arrival_three_samples :
  ∃ q1 s1 s2 q2 rng,
    arrival (queue (Airport_init 1 1)) {| now := 0; priority_queue := [] |} =
      Ok (q1, s1) ∧
    run_loop call 2 Inf s1 (set_queue (Airport_init 1 1) q1, unit_source) =
      Some (Ok (s2, (set_queue (Airport_init 1 1) q2, rng))) ∧
    priority_queue s2 = [] ∧
    time_history q2 = [0; 0; 0 + 1 / 1]%Q ∧
    queue_length_history q2 = [1; 1; 0]%Z ∧
    time_history q2 ≠ [0; 0 + 1 / 1]%Q.
Proof.
  do 5 eexists. split; [reflexivity|]. split; [reflexivity|].
  split; [reflexivity|]. split; [reflexivity|]. split; [reflexivity|].
  discriminate.
Qed.

(** C9, amended: from an empty queue with a nonzero service rate and an
    empty schedule whose clock is [t], one [arrival] followed by running the
    schedule until nothing is pending leaves nobody waiting and the server
    idle, and the history is (t, 1), (t, 1), (t + 1/service_rate, 0). *)
Theorem single_arrival (t mu lam : Q) (rng : Random) (fuel : nat) :
  ¬ (mu == 0)%Q →
  let schedule : Schedule callback := {| now := t; priority_queue := [] |} in
  let airport := Airport_init lam mu in
  ∃ q1 s1 q2,
    arrival (queue airport) schedule = Ok (q1, s1) ∧
    run_loop call (S (S fuel)) Inf s1 (set_queue airport q1, rng) =
      Some (Ok ({| now := t + 1 / mu; priority_queue := [] |},
                (set_queue airport q2, rng))) ∧
    queue_length q2 = 0%Z ∧ in_service q2 = 0%Z ∧
    time_history q2 = [t; t; t + 1 / mu]%Q ∧
    queue_length_history q2 = [1; 1; 0]%Z.
Proof.
  intros Hmu schedule airport.
  unfold arrival, start_service. simpl.
  rewrite (Qeq_bool_false _ _ Hmu).
  do 3 eexists. split; [reflexivity|].
  split; [reflexivity|]. done.
Qed.

Lemma single_arrival_witness :
  ¬ (2 == 0)%Q ∧
  let schedule : Schedule callback := {| now := 0; priority_queue := [] |} in
  let airport := Airport_init 1 2 in
  ∃ q1 s1 q2,
    arrival (queue airport) schedule = Ok (q1, s1) ∧
    run_loop call 2 Inf s1 (set_queue airport q1, unit_source) =
      Some (Ok ({| now := 0 + 1 / 2; priority_queue := [] |},
                (set_queue airport q2, unit_source))) ∧
    queue_length q2 = 0%Z ∧ in_service q2 = 0%Z ∧
    time_history q2 = [0; 0; 0 + 1 / 2]%Q ∧
    queue_length_history q2 = [1; 1; 0]%Z.
Proof.
  assert (¬ (2 == 0)%Q) as H by (intros E; discriminate E).
  split; [exact H|]. exact (single_arrival 0 2 1 unit_source 0 H).
Defined.

(** ** The driver validates nothing *)

(** C4 fails as stated: with a negative arrival rate, a zero service rate
    and a negative horizon, [run_simulation] schedules the first arrival and
    returns normally. *)
Lemma run_simulation_accepts_bad_parameters :
  run_simulation (-1) 0 (Finite (-2)) unit_source 1 =
    Some (Ok ({| now := 0;
                 priority_queue :=
                   [{| timestamp := 0 + 1 / -1;
                       function := Airport_handle_arrival |}] |},
              (Airport_init (-1) 0, advance unit_source))).
Proof. reflexivity. Qed.

Lemma Qdiv_nonneg (e lam : Q) : (0 <= e → 0 < lam → 0 <= e / lam)%Q.
Proof.
  intros He Hlam. apply Qle_shift_div_l; [done|]. by rewrite Qmult_0_l.
Qed.

(** C4, amended: [run_simulation] checks no parameter and has no
    [InvalidParameter] error.  A zero arrival rate makes the first
    [expovariate] raise [ZeroDivisionError], with nothing scheduled and no
    event executed.  With a positive arrival rate, a non-negative draw and a
    negative horizon, whatever the service rate, the first arrival is
    scheduled, no event is executed and the call returns normally. *)
Theorem run_simulation_unvalidated (lam mu : Q) (rng : Random) (fuel : nat) :
  ((lam == 0)%Q →
   ∀ run_until,
     run_simulation lam mu run_until rng fuel =
       Some (Raise ZeroDivisionError
               (Schedule_init, (Airport_init lam mu, advance rng)))) ∧
  ((0 < lam)%Q → (0 <= source rng (position rng))%Q →
   ∀ horizon, (horizon < 0)%Q →
     run_simulation lam mu (Finite horizon) rng (S fuel) =
       Some (Ok ({| now := 0;
                    priority_queue :=
                      [{| timestamp := 0 + source rng (position rng) / lam;
                          function := Airport_handle_arrival |}] |},
                 (Airport_init lam mu, advance rng)))).
Proof.
  split.
  - intros Hlam run_until. unfold run_simulation, schedule_initial_arrival,
      expovariate. simpl.
    by rewrite (proj2 (Qeq_bool_iff _ _) Hlam).
  - intros Hlam He horizon Hh.
    unfold run_simulation, schedule_initial_arrival, expovariate. simpl.
    rewrite Qeq_bool_false by lra. simpl. unfold loop_cond. simpl.
    destruct (Qle_bool _ horizon) eqn:E; [|done].
    apply Qle_bool_iff in E.
    pose proof (Qdiv_nonneg _ _ He Hlam). lra.
Qed.

Lemma run_simulation_unvalidated_witness :
  ((0 == 0)%Q ∧ (0 < 1)%Q ∧ (0 <= source unit_source (position unit_source))%Q
   ∧ (-1 < 0)%Q) ∧
  run_simulation 0 1 Inf unit_source 1 =
    Some (Raise ZeroDivisionError
            (Schedule_init, (Airport_init 0 1, advance unit_source))) ∧
  run_simulation 1 0 (Finite (-1)) unit_source 1 =
    Some (Ok ({| now := 0;
                 priority_queue :=
                   [{| timestamp := 0 + 1 / 1;
                       function := Airport_handle_arrival |}] |},
              (Airport_init 1 0, advance unit_source))).
Proof.
  assert ((0 == 0)%Q ∧ (0 < 1)%Q ∧ (0 <= 1)%Q ∧ (-1 < 0)%Q) as H.
  { split; [reflexivity|]. split; [reflexivity|].
    split; [discriminate|reflexivity]. }
  split; [exact H|]. split.
  - apply (proj1 (run_simulation_unvalidated 0 1 unit_source 1)), H.
  - apply (proj2 (run_simulation_unvalidated 1 0 unit_source 0)); apply H.
Defined.

(** ** Runs of a schedule *)


Section Runs.
Context {callback W : Type}.
Variable call :
  callback → Schedule callback → W → outcome (Schedule callback * W).
Implicit Types (s : Schedule callback) (w : W).

Lemma run_next_event_causal Winv s w :
  causal_handlers call Winv → Winv w → causal s →
  (now s <= now (final (run_next_event call s w)).1)%Q ∧
  causal (final (run_next_event call s w)).1 ∧
  Winv (final (run_next_event call s w)).2.
Proof.
  intros Hcall Hw [Hheap Hpast].
  destruct (decide (priority_queue s = [])) as [Hnil|Hne].
  { rewrite run_next_event_empty by done. simpl.
    split; [lra|]. by split. }
  destruct (run_next_event_spec call s w Hne)
    as (m & pq' & _ & Hm & Hperm & Hheap' & ->).
  assert (causal {| now := timestamp m; priority_queue := pq' |}) as Hc.
  { split; [by apply Hheap'|]. unfold no_past. simpl.
    pose proof (pq_heap_head _ _ Hheap Hm) as Hmin.
    rewrite Hperm in Hmin. by inversion Hmin. }
  destruct (Hcall (function m) _ w Hw Hc) as (Hnow & Hc' & Hw').
  split; [|done]. rewrite Hnow. simpl.
  unfold no_past in Hpast. rewrite Hperm in Hpast. by inversion Hpast.
Qed.

Lemma add_events_spec (evs : list (Event callback)) : ∀ s,
  ∃ s', add_events s evs = Ok s' ∧ now s' = now s ∧
        priority_queue s' ≡ₚ evs ++ priority_queue s ∧
        (pq_heap (priority_queue s) → pq_heap (priority_queue s')).
Proof.
  induction evs as [|e evs IH]; intros s; simpl.
  { exists s. by split_and!. }
  destruct (add_event_at_spec s (timestamp e) (function e))
    as (pq' & -> & Hperm & Hheap).
  destruct (IH {| now := now s; priority_queue := pq' |})
    as (s' & -> & Hnow & Hperm' & Hheap').
  exists s'. split; [done|]. split; [done|]. split; [|auto].
  rewrite Hperm'. simpl. rewrite Hperm. destruct e.
  by rewrite Permutation_middle.
Qed.

(** Draining a heap with quiet handlers reads the timestamps in
    non-decreasing order. *)
Lemma clock_trace_drain :
  quiet_handlers call →
  ∀ n s w, pq_heap (priority_queue s) → length (priority_queue s) = n →
    StronglySorted Qle (clock_trace call n s w) ∧
    clock_trace call n s w ≡ₚ map timestamp (priority_queue s).
Proof.
  intros Hquiet n. induction n as [|n IH]; intros s w Hheap Hlen; simpl.
  { apply nil_length_inv in Hlen. rewrite Hlen. split; [constructor|done]. }
  assert (priority_queue s ≠ []) as Hne by (intros E; by rewrite E in Hlen).
  destruct (run_next_event_spec call s w Hne)
    as (m & pq' & _ & Hm & Hperm & Hheap' & ->).
  destruct (Hquiet (function m)
              {| now := timestamp m; priority_queue := pq' |} w) as [w' ->].
  simpl.
  destruct (IH {| now := timestamp m; priority_queue := pq' |} w')
    as [Hsorted Hperm']; simpl; [auto| |].
  { rewrite Hperm in Hlen. simpl in Hlen. lia. }
  simpl in Hperm'. split.
  - constructor; [done|]. rewrite Hperm'.
    pose proof (pq_heap_head _ _ Hheap Hm) as Hmin.
    rewrite Hperm in Hmin. apply Forall_cons in Hmin as [_ Hmin].
    by apply Forall_fmap.
  - rewrite Hperm, Hperm'. done.
Qed.

End Runs.

(** ** The handlers of the simulation only add events *)

Lemma adds_refl P s : adds P s s.
Proof. split; [done|]. split; [done|]. by exists []. Qed.

Lemma adds_trans P s1 s2 s3 : adds P s1 s2 → adds P s2 s3 → adds P s1 s3.
Proof.
  intros (Hn1 & Hh1 & a1 & Hp1 & Hf1) (Hn2 & Hh2 & a2 & Hp2 & Hf2).
  split; [congruence|]. split; [auto|]. exists (a2 ++ a1). split.
  - by rewrite Hp2, Hp1, app_assoc.
  - by apply Forall_app.
Qed.

Lemma adds_impl (P P' : Event callback → Prop) s s' :
  (∀ e, P e → P' e) → adds P s s' → adds P' s s'.
Proof.
  intros HP (Hn & Hh & a & Hp & Hf). split; [done|]. split; [done|].
  exists a. split; [done|]. by eapply Forall_impl.
Qed.

Lemma add_event_after_adds (s : Schedule callback) i f :
  ∃ s', add_event_after s i f = Ok s' ∧
        adds (λ e, timestamp e = (now s + i)%Q) s s'.
Proof.
  unfold add_event_after.
  destruct (add_event_at_spec s (now s + i)%Q f) as (pq' & -> & Hperm & Hheap).
  eexists. split; [done|]. split; [done|]. split; [done|].
  eexists [_]. split; [exact Hperm|]. by repeat constructor.
Qed.

Lemma start_service_adds q s :
  adds (λ e, (0 < service_rate q)%Q → (now s <= timestamp e)%Q)
    s (final (start_service q s)).2 ∧
  service_rate (final (start_service q s)).1 = service_rate q.
Proof.
  unfold start_service.
  destruct ((0 <? queue_length q)%Z && (in_service q =? 0)%Z); simpl;
    [|split; [apply adds_refl|done]].
  destruct (Qeq_bool (service_rate q) 0); simpl;
    [split; [apply adds_refl|done]|].
  destruct (add_event_after_adds s (1 / service_rate q)%Q Queue_end_service)
    as (s' & -> & Hadds).
  simpl. split; [|done]. eapply adds_impl; [|exact Hadds].
  intros e -> Hmu. pose proof (Qdiv_nonneg 1 _ ltac:(lra) Hmu). lra.
Qed.

Lemma arrival_adds q s :
  adds (λ e, (0 < service_rate q)%Q → (now s <= timestamp e)%Q)
    s (final (arrival q s)).2 ∧
  service_rate (final (arrival q s)).1 = service_rate q.
Proof.
  unfold arrival.
  destruct (in_service _ =? 0)%Z; [|split; [apply adds_refl|done]].
  match goal with
  | |- context [start_service ?q1 s] => exact (start_service_adds q1 s)
  end.
Qed.

Lemma end_service_adds q s :
  adds (λ e, (0 < service_rate q)%Q → (now s <= timestamp e)%Q)
    s (final (end_service q s)).2 ∧
  service_rate (final (end_service q s)).1 = service_rate q.
Proof.
  unfold end_service.
  destruct (0 <? queue_length _)%Z; [|split; [apply adds_refl|done]].
  match goal with
  | |- context [start_service ?q1 s] => exact (start_service_adds q1 s)
  end.
Qed.

Lemma handle_arrival_adds a s rng :
  adds (λ e, Winv (a, rng) → (now s <= timestamp e)%Q)
    s (final (handle_arrival a s rng)).1 ∧
  (Winv (a, rng) → Winv (final (handle_arrival a s rng)).2).
Proof.
  unfold handle_arrival.
  destruct (arrival_adds (queue a) s) as [Hadds Hrate].
  assert (adds (λ e, Winv (a, rng) → (now s <= timestamp e)%Q)
            s (final (arrival (queue a) s)).2) as Hadds'.
  { eapply adds_impl; [|exact Hadds]. intros e He (_ & Hmu & _). auto. }
  destruct (arrival (queue a) s) as [[q s1]|x [q s1]]; simpl in *.
  2:{ split; [done|]. unfold Winv. simpl. by rewrite Hrate. }
  unfold expovariate.
  destruct (Qeq_bool (arrival_rate a) 0); simpl.
  { split; [done|]. unfold Winv. simpl. by rewrite Hrate. }
  destruct (add_event_after_adds s1
              (source rng (position rng) / arrival_rate a)%Q
              Airport_handle_arrival) as (s2 & -> & Hadds2).
  simpl. split; [|unfold Winv; simpl; by rewrite Hrate].
  eapply adds_trans; [exact Hadds'|].
  eapply adds_impl; [|exact Hadds2].
  intros e -> (Hlam & _ & Hdraw). simpl in *.
  destruct Hadds' as [-> _].
  pose proof (Qdiv_nonneg _ _ (Hdraw (position rng)) Hlam). lra.
Qed.

Lemma call_adds f s w :
  adds (λ e, Winv w → (now s <= timestamp e)%Q) s (final (call f s w)).1 ∧
  (Winv w → Winv (final (call f s w)).2).
Proof.
  destruct w as [a rng]. destruct f; simpl; [|apply handle_arrival_adds].
  destruct (end_service_adds (queue a) s) as [Hadds Hrate].
  destruct (end_service (queue a) s) as [[q s1]|x [q s1]]; simpl in *.
  all: split; [|unfold Winv; simpl; by rewrite Hrate].
  all: eapply adds_impl; [|exact Hadds]; intros e He (_ & Hmu & _); auto.
Qed.

Lemma call_causal : causal_handlers call Winv.
Proof.
  intros f s w Hw [Hheap Hpast].
  destruct (call_adds f s w) as [(Hnow & Hh & added & Hperm & Hadded) Hw'].
  split; [done|]. split; [|auto]. split; [auto|].
  unfold no_past. rewrite Hnow, Hperm. apply Forall_app. split; [|done].
  eapply Forall_impl; [exact Hadded|]. auto.
Qed.


(** The loop of [run_simulation] starts on a heap. *)
Lemma loop_start_heap (lam mu : Q) (rng : Random) s w :
  schedule_initial_arrival (Airport_init lam mu) Schedule_init rng =
    Ok (s, w) →
  pq_heap (priority_queue s).
Proof.
  unfold schedule_initial_arrival, expovariate.
  destruct (Qeq_bool _ 0); [done|].
  destruct (add_event_after_adds (@Schedule_init callback)
              (source rng (position rng) / lam)%Q Airport_handle_arrival)
    as (s' & Hs' & _ & Hheap & _).
  change (arrival_rate (Airport_init lam mu)) with lam.
  rewrite Hs'. intros [= <- _].
  apply Hheap, heapq_spec.is_heap_nil.
Qed.

(** ** The clock *)

(** C1 fails as stated: after an event at 5 has run, an event is added at 3;
    the next [run_next_event] moves the clock from 5 back to 3. *)
Lemma clock_goes_back :
  ∃ s0 s2 w2,
    add_event_at Schedule_init 5 Queue_end_service = Ok s0 ∧
    run_next_event call s0 unit_world = Ok (schedule_at_5, world_at_5) ∧
    add_event_at schedule_at_5 3 Queue_end_service = Ok late_schedule ∧
    run_next_event call late_schedule world_at_5 = Ok (s2, w2) ∧
    now late_schedule = 5%Q ∧ now s2 = 3%Q ∧
    ¬ (now late_schedule <= now s2)%Q ∧
    ¬ Sorted Qle
        (now late_schedule :: clock_trace call 1 late_schedule world_at_5).
Proof.
  do 3 eexists. do 6 (split; [reflexivity|]). split.
  - intros H. vm_compute in H. by apply H.
  - intros H. apply Sorted_inv in H as [_ H]. apply HdRel_inv in H.
    vm_compute in H. by apply H.
Qed.

(** C1, amended: if the pending events form the heap that [add_event_at]
    maintains, none of them is timestamped before [now], and the handlers
    leave the clock alone and schedule nothing before it, then over any
    number of successive [run_next_event] calls the clock after each call is
    at least the clock before it. *)
Theorem clock_monotone {callback W : Type}
    (call : callback → Schedule callback → W →
            outcome (Schedule callback * W))
    (Winv : W → Prop) (n : nat) (s : Schedule callback) (w : W) :
  causal_handlers call Winv → Winv w → causal s →
  Sorted Qle (now s :: clock_trace call n s w).
Proof.
  intros Hcall. revert s w.
  induction n as [|n IH]; intros s w Hw Hs; simpl.
  { repeat constructor. }
  destruct (run_next_event_causal call Winv s w Hcall Hw Hs)
    as (Hle & Hs' & Hw').
  destruct (run_next_event call s w) as [[s' w']|e [s' w']]; simpl in *.
  - constructor; [by apply IH|]. by constructor.
  - repeat constructor. done.
Qed.

Lemma pq_heap_singleton {callback} (e : Event callback) : pq_heap [e].
Proof. intros j x p Hj Hx. destruct j; [lia|done]. Qed.

Lemma clock_monotone_witness :
  (causal_handlers call Winv ∧ Winv (Airport_init 1 1, advance unit_source) ∧
   causal first_arrival_schedule) ∧
  Sorted Qle
    (now first_arrival_schedule ::
     clock_trace call 4 first_arrival_schedule
       (Airport_init 1 1, advance unit_source)).
Proof.
  assert (Winv (Airport_init 1 1, advance unit_source)) as Hw.
  { split; [reflexivity|]. split; [reflexivity|]. intros n. discriminate. }
  assert (causal first_arrival_schedule) as Hs.
  { split; [apply pq_heap_singleton|].
    constructor; [discriminate|constructor]. }
  split; [split; [exact call_causal|split; [exact Hw|exact Hs]]|].
  exact (clock_monotone call Winv 4 first_arrival_schedule _
           call_causal Hw Hs).
Defined.

(** ** Order of the pops *)

(** C2 fails as stated: equal timestamps are not resolved by a fixed rule.
    Three tied events run in insertion order, but of four tied events the
    third runs before the second; so no rule on insertion ranks decides
    which of two tied events runs first. *)
Lemma no_fixed_tie_break :
  pop_order (tied 3) = Some [0; 1; 2] ∧
  pop_order (tied 4) = Some [0; 2; 1; 3] ∧
  ¬ ∃ rule : nat → nat → bool,
      ∀ n log a b x y,
        pop_order (tied n) = Some log → a < b →
        log !! a = Some x → log !! b = Some y →
        rule x y = true ∧ rule y x = false.
Proof.
  split; [reflexivity|]. split; [reflexivity|].
  intros [rule H].
  destruct (H 3 [0; 1; 2] 1 2 1 2) as [H12 _]; try reflexivity; [lia|].
  destruct (H 4 [0; 2; 1; 3] 1 2 2 1) as [_ H12']; try reflexivity; [lia|].
  congruence.
Qed.

(** C2, amended: pushing any list of events on a new schedule with
    [add_event_at], in any order, and then calling [run_next_event] once per
    event (with handlers that leave the schedule alone) reads the clock at a
    non-decreasing sequence of timestamps that is a permutation of the
    pushed ones, i.e. at the pushed timestamps sorted.  Which of two events
    with equal timestamps runs first is left to the sifting of [heapq]. *)
Theorem pops_sorted {callback W : Type}
    (call : callback → Schedule callback → W →
            outcome (Schedule callback * W))
    (evs : list (Event callback)) (w : W) :
  quiet_handlers call →
  ∃ s, add_events Schedule_init evs = Ok s ∧
       Sorted Qle (clock_trace call (length evs) s w) ∧
       clock_trace call (length evs) s w ≡ₚ map timestamp evs.
Proof.
  intros Hquiet.
  destruct (add_events_spec evs Schedule_init)
    as (s & Hadd & _ & Hperm & Hheap).
  simpl in Hperm. rewrite app_nil_r in Hperm.
  exists s. split; [done|].
  destruct (clock_trace_drain call Hquiet (length evs) s w)
    as [Hsorted Hperm'].
  - apply Hheap, heapq_spec.is_heap_nil.
  - by rewrite Hperm.
  - split; [by apply StronglySorted_Sorted|]. by rewrite Hperm', Hperm.
Qed.

Lemma pops_sorted_witness :
  let evs := [ {| timestamp := 5; function := 0 |};
               {| timestamp := 3; function := 1 |};
               {| timestamp := 4; function := 2 |};
               {| timestamp := 3; function := 3 |};
               {| timestamp := 1; function := 4 |} ] in
  quiet_handlers log_call ∧
  ∃ s, add_events Schedule_init evs = Ok s ∧
       Sorted Qle (clock_trace log_call (length evs) s []) ∧
       clock_trace log_call (length evs) s [] ≡ₚ map timestamp evs.
Proof.
  assert (quiet_handlers log_call) as H.
  { intros f s w. eexists. reflexivity. }
  split; [exact H|]. exact (pops_sorted log_call _ [] H).
Defined.

(** ** The loop of the driver *)



(** * Further properties of the scheduler and of the queue *)

(** ** Schedule: earliest event first *)



(** X2: on a heap with something pending, [run_next_event] takes out
    exactly one event, one that no pending event precedes and whose
    timestamp is what [next_event_time] announced; its handler runs on the
    schedule with that event gone and the clock set to its timestamp, and
    what stays pending is again a heap. *)
Theorem run_next_event_pops_earliest {callback W : Type}
    (call : callback → Schedule callback → W →
            outcome (Schedule callback * W))
    (s : Schedule callback) (w : W) :
  pq_heap (priority_queue s) → priority_queue s ≠ [] →
  ∃ m rest,
    priority_queue s ≡ₚ m :: rest ∧
    Forall (λ e, (timestamp m <= timestamp e)%Q) rest ∧
    pq_heap rest ∧
    next_event_time s = Finite (timestamp m) ∧
    run_next_event call s w =
      call (function m) {| now := timestamp m; priority_queue := rest |} w.
Proof.
  intros Hheap Hne.
  destruct (run_next_event_spec call s w Hne)
    as (m & rest & _ & Hm & Hperm & Hheap' & Hrun).
  exists m, rest. split; [done|].
  pose proof (pq_heap_head _ _ Hheap Hm) as Hmin.
  split; [|split; [auto|split; [|done]]].
  - rewrite Hperm in Hmin. by apply Forall_cons in Hmin as [_ ?].
  - unfold next_event_time. destruct (priority_queue s); [done|].
    simpl in Hm. by simplify_eq.
Qed.

Lemma run_next_event_pops_earliest_witness :
  pq_heap (priority_queue three_pending) ∧ priority_queue three_pending ≠ [] ∧
  ∃ m rest,
    priority_queue three_pending ≡ₚ m :: rest ∧
    Forall (λ e, (timestamp m <= timestamp e)%Q) rest ∧
    pq_heap rest ∧
    next_event_time three_pending = Finite (timestamp m) ∧
    run_next_event call three_pending unit_world =
      call (function m) {| now := timestamp m; priority_queue := rest |}
        unit_world.
Proof.
  assert (pq_heap (priority_queue three_pending)) as H.
  { unfold three_pending.
    destruct (add_events_spec
      [ {| timestamp := 2; function := Queue_end_service |};
        {| timestamp := 1; function := Queue_end_service |};
        {| timestamp := 3; function := Queue_end_service |} ]
      (@Schedule_init callback)) as (s' & -> & _ & _ & Hheap).
    apply Hheap, heapq_spec.is_heap_nil. }
  assert (priority_queue three_pending ≠ []) as Hne by discriminate.
  split; [exact H|]. split; [exact Hne|].
  exact (run_next_event_pops_earliest call three_pending unit_world H Hne).
Defined.

(** X3: on a causal schedule (a heap with nothing pending before the
    clock), [add_event_after] with a non-negative interval returns normally,
    leaves the clock alone, adds exactly the event due at [now + interval],
    and the schedule is causal again. *)
Theorem add_event_after_causal {callback} (s : Schedule callback)
    (interval : Q) (f : callback) :
  (0 <= interval)%Q → causal s →
  ∃ s', add_event_after s interval f = Ok s' ∧ now s' = now s ∧
        priority_queue s' ≡ₚ
          {| timestamp := now s + interval; function := f |}
          :: priority_queue s ∧
        causal s'.
Proof.
  intros Hi [Hheap Hpast]. unfold add_event_after.
  destruct (add_event_at_spec s (now s + interval)%Q f)
    as (pq' & -> & Hperm & Hheap').
  eexists. split; [done|]. split; [done|]. split; [done|].
  split; [auto|]. unfold no_past. simpl. rewrite Hperm.
  constructor; [simpl; lra|done].
Qed.

Lemma add_event_after_causal_witness :
  ((0 <= 1 # 2)%Q ∧ causal first_arrival_schedule) ∧
  ∃ s', add_event_after first_arrival_schedule (1 # 2) Queue_end_service =
          Ok s' ∧
        now s' = now first_arrival_schedule ∧
        priority_queue s' ≡ₚ
          {| timestamp := now first_arrival_schedule + (1 # 2);
             function := Queue_end_service |}
          :: priority_queue first_arrival_schedule ∧
        causal s'.
Proof.
  assert ((0 <= 1 # 2)%Q) as Hi by discriminate.
  assert (causal first_arrival_schedule) as Hs.
  { split; [apply pq_heap_singleton|].
    constructor; [discriminate|constructor]. }
  split; [split; [exact Hi|exact Hs]|].
  exact (add_event_after_causal first_arrival_schedule (1 # 2)
           Queue_end_service Hi Hs).
Defined.

(** X4: an event added with a timestamp strictly before everything pending
    is the next one to run: after [add_event_at], [run_next_event] calls
    the new handler with the clock at the new timestamp, and exactly the
    earlier pending events are still pending. *)
Theorem earlier_event_runs_next {callback W : Type}
    (call : callback → Schedule callback → W →
            outcome (Schedule callback * W))
    (s : Schedule callback) (w : W) (t : Q) (f : callback) :
  pq_heap (priority_queue s) →
  Forall (λ e, (t < timestamp e)%Q) (priority_queue s) →
  ∃ s1 rest,
    add_event_at s t f = Ok s1 ∧ rest ≡ₚ priority_queue s ∧
    run_next_event call s1 w =
      call f {| now := t; priority_queue := rest |} w.
Proof.
  intros Hheap Hlate.
  destruct (add_event_at_spec s t f) as (pq1 & Hadd & Hperm1 & Hheap1).
  specialize (Hheap1 Hheap).
  set (s1 := {| now := now s; priority_queue := pq1 |}) in *.
  assert (priority_queue s1 ≠ []) as Hne.
  { simpl. intros E. rewrite E in Hperm1.
    by apply Permutation_nil_cons in Hperm1. }
  destruct (run_next_event_spec call s1 w Hne)
    as (m & rest & _ & Hm & Hperm & _ & Hrun). simpl in Hm, Hperm.
  pose proof (pq_heap_head _ _ Hheap1 Hm) as Hmin.
  assert (m = {| timestamp := t; function := f |}) as ->.
  { assert (m ∈ pq1) as Hin by (by eapply list_elem_of_lookup_2).
    rewrite Hperm1 in Hin, Hmin.
    apply Forall_cons in Hmin as [Hmt _]. simpl in Hmt.
    apply elem_of_cons in Hin as [->|Hin]; [done|].
    rewrite Forall_forall in Hlate. specialize (Hlate m Hin). lra. }
  exists s1, rest. split; [done|]. split; [|done].
  rewrite Hperm in Hperm1. by apply Permutation_cons_inv in Hperm1.
Qed.

Lemma earlier_event_runs_next_witness :
  (pq_heap (priority_queue three_pending) ∧
   Forall (λ e, (1 # 2 < timestamp e)%Q) (priority_queue three_pending)) ∧
  ∃ s1 rest,
    add_event_at three_pending (1 # 2) Airport_handle_arrival = Ok s1 ∧
    rest ≡ₚ priority_queue three_pending ∧
    run_next_event call s1 unit_world =
      call Airport_handle_arrival
        {| now := 1 # 2; priority_queue := rest |} unit_world.
Proof.
  assert (pq_heap (priority_queue three_pending)) as H.
  { unfold three_pending.
    destruct (add_events_spec
      [ {| timestamp := 2; function := Queue_end_service |};
        {| timestamp := 1; function := Queue_end_service |};
        {| timestamp := 3; function := Queue_end_service |} ]
      (@Schedule_init callback)) as (s' & -> & _ & _ & Hheap).
    apply Hheap, heapq_spec.is_heap_nil. }
  assert (Forall (λ e : Event callback, (1 # 2 < timestamp e)%Q)
            (priority_queue three_pending)) as Hl.
  { repeat constructor. }
  split; [split; [exact H|exact Hl]|].
  exact (earlier_event_runs_next call three_pending unit_world (1 # 2)
           Airport_handle_arrival H Hl).
Defined.

(** ** Queue: what each handler does *)

Lemma Zltb_true (x y : Z) : (x < y)%Z → (x <? y)%Z = true.
Proof. apply Z.ltb_lt. Qed.

(** X5: [arrival] at a busy server only lengthens the waiting line and
    records one sample; the schedule is untouched.  At an idle server (with
    a non-negative waiting count and a nonzero service rate) the customer
    goes straight into service: the waiting count is unchanged, the server
    is busy, two samples of the same occupancy are recorded at the clock,
    and exactly one [end_service] event is added, due [1/service_rate]
    later. *)
Theorem arrival_effect (self : Queue) (schedule : Schedule callback) :
  (in_service self ≠ 0%Z →
   arrival self schedule =
     Ok (record_state (set_queue_length self (queue_length self + 1))
           (now schedule),
         schedule)) ∧
  (in_service self = 0%Z → (0 ≤ queue_length self)%Z →
   ¬ (service_rate self == 0)%Q →
   ∃ pq',
     arrival self schedule =
       Ok ({| queue_length := queue_length self;
              in_service := 1;
              service_rate := service_rate self;
              queue_length_history :=
                queue_length_history self ++
                [(queue_length self + 1)%Z; (queue_length self + 1)%Z];
              time_history :=
                time_history self ++ [now schedule; now schedule] |},
           {| now := now schedule; priority_queue := pq' |}) ∧
     pq' ≡ₚ {| timestamp := (now schedule + 1 / service_rate self)%Q;
               function := Queue_end_service |} :: priority_queue schedule).
Proof.
  split.
  - intros Hs. unfold arrival. simpl.
    by rewrite (proj2 (Z.eqb_neq _ _) Hs).
  - intros Hs Hq Hrate. unfold arrival, start_service. simpl.
    rewrite Hs. simpl. rewrite Zltb_true by lia. simpl.
    rewrite (Qeq_bool_false _ _ Hrate). unfold add_event_after.
    destruct (add_event_at_spec schedule
                (now schedule + 1 / service_rate self)%Q Queue_end_service)
      as (pq' & -> & Hperm & _).
    exists pq'. split; [|done]. unfold record_state. simpl.
    rewrite <- !app_assoc. simpl.
    do 2 f_equal. f_equal; [lia|]. do 2 f_equal; [lia|f_equal; lia].
Qed.

Lemma arrival_effect_witness :
  let self := Queue_init 2 in
  let schedule : Schedule callback := Schedule_init in
  (in_service self = 0%Z ∧ (0 ≤ queue_length self)%Z ∧
   ¬ (service_rate self == 0)%Q) ∧
  ∃ pq',
    arrival self schedule =
      Ok ({| queue_length := queue_length self;
             in_service := 1;
             service_rate := service_rate self;
             queue_length_history :=
               queue_length_history self ++
               [(queue_length self + 1)%Z; (queue_length self + 1)%Z];
             time_history :=
               time_history self ++ [now schedule; now schedule] |},
          {| now := now schedule; priority_queue := pq' |}) ∧
    pq' ≡ₚ {| timestamp := (now schedule + 1 / service_rate self)%Q;
              function := Queue_end_service |} :: priority_queue schedule.
Proof.
  assert (0%Z = 0%Z ∧ (0 ≤ 0)%Z ∧ ¬ (2 == 0)%Q) as H.
  { split; [reflexivity|]. split; [discriminate|].
    intros E. discriminate E. }
  split; [exact H|].
  apply (proj2 (arrival_effect (Queue_init 2) Schedule_init)); apply H.
Defined.

(** X6: [end_service] with nobody waiting frees the server, records one
    sample and leaves the schedule untouched.  With somebody waiting (and a
    nonzero service rate) it cascades into the next service: one customer
    leaves the waiting line, the server is busy again, two samples of the
    same occupancy are recorded at the clock, and exactly one [end_service]
    event is added, due [1/service_rate] later. *)
Theorem end_service_effect (self : Queue) (schedule : Schedule callback) :
  ((queue_length self ≤ 0)%Z →
   end_service self schedule =
     Ok (record_state (set_in_service self 0) (now schedule), schedule)) ∧
  ((0 < queue_length self)%Z → ¬ (service_rate self == 0)%Q →
   ∃ pq',
     end_service self schedule =
       Ok ({| queue_length := queue_length self - 1;
              in_service := 1;
              service_rate := service_rate self;
              queue_length_history :=
                queue_length_history self ++
                [queue_length self; queue_length self];
              time_history :=
                time_history self ++ [now schedule; now schedule] |},
           {| now := now schedule; priority_queue := pq' |}) ∧
     pq' ≡ₚ {| timestamp := (now schedule + 1 / service_rate self)%Q;
               function := Queue_end_service |} :: priority_queue schedule).
Proof.
  split.
  - intros Hq. unfold end_service. simpl.
    by rewrite (proj2 (Z.ltb_ge _ _) Hq).
  - intros Hq Hrate. unfold end_service, start_service. simpl.
    rewrite Zltb_true by lia. simpl.
    rewrite (Qeq_bool_false _ _ Hrate). unfold add_event_after.
    destruct (add_event_at_spec schedule
                (now schedule + 1 / service_rate self)%Q Queue_end_service)
      as (pq' & -> & Hperm & _).
    exists pq'. split; [|done]. unfold record_state. simpl.
    rewrite <- !app_assoc. simpl.
    do 3 f_equal. do 2 f_equal; [lia|f_equal; lia].
Qed.

Lemma end_service_effect_witness :
  let self := set_in_service (one_waiting 2) 1 in
  let schedule : Schedule callback := Schedule_init in
  ((0 < queue_length self)%Z ∧ ¬ (service_rate self == 0)%Q) ∧
  ∃ pq',
    end_service self schedule =
      Ok ({| queue_length := queue_length self - 1;
             in_service := 1;
             service_rate := service_rate self;
             queue_length_history :=
               queue_length_history self ++
               [queue_length self; queue_length self];
             time_history :=
               time_history self ++ [now schedule; now schedule] |},
          {| now := now schedule; priority_queue := pq' |}) ∧
    pq' ≡ₚ {| timestamp := (now schedule + 1 / service_rate self)%Q;
              function := Queue_end_service |} :: priority_queue schedule.
Proof.
  assert ((0 < 1)%Z ∧ ¬ (2 == 0)%Q) as H.
  { split; [reflexivity|]. intros E. discriminate E. }
  split; [exact H|].
  apply (proj2 (end_service_effect (set_in_service (one_waiting 2) 1)
                  Schedule_init)); apply H.
Defined.

(** X7: a second [start_service] right after one that returned changes
    nothing: the first call either did nothing, and then the guard still
    fails, or it made the server busy. *)
Theorem start_service_twice (self q' : Queue)
    (schedule s' : Schedule callback) :
  start_service self schedule = Ok (q', s') →
  start_service q' s' = Ok (q', s').
Proof.
  unfold start_service at 1.
  destruct ((0 <? queue_length self)%Z && (in_service self =? 0)%Z) eqn:G.
  - destruct (Qeq_bool _ _); [done|].
    destruct (add_event_after _ _ _); [|done].
    intros [= <- <-]. unfold start_service. simpl.
    by rewrite andb_false_r.
  - intros [= <- <-]. unfold start_service. by rewrite G.
Qed.

Lemma start_service_twice_witness :
  ∃ q' s',
    start_service (one_waiting 2) Schedule_init = Ok (q', s') ∧
    start_service q' s' = Ok (q', s').
Proof.
  do 2 eexists.
  assert (start_service (one_waiting 2) Schedule_init = Ok (_, _)) as H
    by reflexivity.
  split; [exact H|].
  exact (start_service_twice _ _ _ _ H).
Defined.

(** ** Queue: shape of the recorded histories *)

Lemma unit_steps_snoc (l : list Z) (x : Z) :
  unit_steps l → (∀ a, last l = Some a → (-1 ≤ x - a ≤ 1)%Z) →
  unit_steps (l ++ [x]).
Proof.
  intros Hl Hx i a b Ha Hb.
  pose proof (lookup_lt_Some _ _ _ Hb) as Hlen.
  rewrite length_app in Hlen. simpl in Hlen.
  rewrite lookup_app_l in Ha by lia.
  destruct (decide (S i < length l)) as [Hi|Hi].
  - rewrite lookup_app_l in Hb by lia. by eapply Hl.
  - assert (S i = length l) as Hi' by lia.
    rewrite list_lookup_middle in Hb by done. simplify_eq.
    apply Hx. rewrite last_lookup, <- Hi'. done.
Qed.

Lemma hist_ok_snoc th qlh occ occ' (t : Q) (x : Z) :
  hist_ok th qlh occ → (0 ≤ x)%Z → (-1 ≤ x - occ ≤ 1)%Z → x = occ' →
  hist_ok (th ++ [t]) (qlh ++ [x]) occ'.
Proof.
  intros (Hlen & Hpos & Hlast & Hsteps) Hx Hd <-.
  split; [rewrite !length_app; simpl; lia|].
  split; [apply Forall_app; split; [done|by constructor]|].
  split; [by rewrite last_snoc|].
  apply unit_steps_snoc; [done|]. intros a Ha.
  rewrite Ha in Hlast. simpl in Hlast. lia.
Qed.

Ltac hist_steps :=
  first [ eassumption
        | eapply hist_ok_snoc;
            [hist_steps | simpl; lia | simpl; lia
            | first [reflexivity | simpl; lia]] ].

Lemma hist_ok_step op self schedule :
  Queue_inv self →
  hist_ok (time_history self) (queue_length_history self)
    (queue_length self + in_service self) →
  let q' := (final (apply_op op self schedule)).1 in
  hist_ok (time_history q') (queue_length_history q')
    (queue_length q' + in_service q').
Proof.
  intros (H1 & H2 & H3) Hh.
  destruct op; handler_cases; hist_steps.
Qed.

Lemma reachable_hist_ok q :
  reachable q →
  hist_ok (time_history q) (queue_length_history q)
    (queue_length q + in_service q).
Proof.
  induction 1 as [sr|self op schedule Hr IH].
  - split; [done|]. split; [constructor|]. split; [done|].
    intros i a b Ha. done.
  - apply hist_ok_step; [by apply reachable_inv|done].
Qed.

(** X9: in every reachable queue state the two history lists have the same
    length, the waiting count and every recorded occupancy are
    non-negative, and the last recorded occupancy is the current one
    ([queue_length + in_service]; 0 when nothing was recorded yet). *)
Theorem history_tracks_occupancy (q : Queue) :
  reachable q →
  length (time_history q) = length (queue_length_history q) ∧
  (0 ≤ queue_length q)%Z ∧
  Forall (λ o, (0 ≤ o)%Z) (queue_length_history q) ∧
  default 0%Z (last (queue_length_history q)) =
    (queue_length q + in_service q)%Z.
Proof.
  intros Hr. destruct (reachable_hist_ok q Hr) as (Hlen & Hpos & Hlast & _).
  destruct (reachable_inv q Hr) as (Hq & _). done.
Qed.

Lemma busy_queue_reachable : reachable busy_queue.
Proof. do 3 apply reachable_step. apply reachable_init. Qed.

Lemma history_tracks_occupancy_witness :
  reachable busy_queue ∧
  queue_length_history busy_queue = [1; 1; 2; 1; 1]%Z ∧
  length (time_history busy_queue) =
    length (queue_length_history busy_queue) ∧
  default 0%Z (last (queue_length_history busy_queue)) =
    (queue_length busy_queue + in_service busy_queue)%Z.
Proof.
  split; [exact busy_queue_reachable|]. split; [reflexivity|].
  pose proof (history_tracks_occupancy busy_queue busy_queue_reachable)
    as (H1 & _ & _ & H4).
  split; [exact H1|exact H4].
Defined.

(** X10: in every reachable queue state the recorded occupancy is a step
    function with steps of at most one: two consecutive samples differ by
    -1, 0 or 1. *)
Theorem occupancy_unit_steps (q : Queue) :
  reachable q → unit_steps (queue_length_history q).
Proof.
  intros Hr. by destruct (reachable_hist_ok q Hr) as (_ & _ & _ & Hsteps).
Qed.

Lemma occupancy_unit_steps_witness :
  reachable busy_queue ∧ unit_steps (queue_length_history busy_queue).
Proof.
  split; [exact busy_queue_reachable|].
  exact (occupancy_unit_steps busy_queue busy_queue_reachable).
Defined.

(** ** The simulation: what is pending, and when the loop can end *)

Lemma pending_perm f (s s' : Schedule callback) :
  priority_queue s ≡ₚ priority_queue s' → pending f s = pending f s'.
Proof. unfold pending. by intros ->. Qed.

Lemma pending_add_event_at f (s s' : Schedule callback) t g :
  add_event_at s t g = Ok s' →
  now s' = now s ∧
  pending f s' = (if decide (g = f) then 1 else 0) + pending f s.
Proof.
  destruct (add_event_at_spec s t g) as (pq' & -> & Hperm & _).
  intros [= <-]. split; [done|]. unfold pending. simpl. rewrite Hperm.
  rewrite filter_cons. simpl. by destruct (decide (g = f)).
Qed.

Lemma start_service_pending q s q' s' :
  start_service q s = Ok (q', s') →
  now s' = now s ∧
  pending Airport_handle_arrival s' = pending Airport_handle_arrival s ∧
  (Z.of_nat (pending Queue_end_service s') - in_service q' =
   Z.of_nat (pending Queue_end_service s) - in_service q)%Z ∧
  (in_service q = 0%Z ∨ in_service q = 1%Z →
   in_service q' = 0%Z ∨ in_service q' = 1%Z).
Proof.
  unfold start_service.
  destruct (0 <? queue_length q)%Z; simpl;
    [destruct (Z.eqb_spec (in_service q) 0) as [Hs|Hs]; simpl|];
    try (intros [= <- <-]; by split_and!).
  destruct (Qeq_bool _ _); [done|]. unfold add_event_after.
  destruct (add_event_at _ _ _) as [s1|] eqn:Hadd; [|done].
  intros [= <- <-]. simpl.
  destruct (pending_add_event_at Airport_handle_arrival _ _ _ _ Hadd)
    as [Hnow Ha].
  destruct (pending_add_event_at Queue_end_service _ _ _ _ Hadd) as [_ He].
  rewrite Ha, He, Hs. simpl. split_and!; auto; lia.
Qed.

Lemma arrival_pending q s q' s' :
  arrival q s = Ok (q', s') →
  now s' = now s ∧
  pending Airport_handle_arrival s' = pending Airport_handle_arrival s ∧
  (Z.of_nat (pending Queue_end_service s') - in_service q' =
   Z.of_nat (pending Queue_end_service s) - in_service q)%Z ∧
  (in_service q = 0%Z ∨ in_service q = 1%Z →
   in_service q' = 0%Z ∨ in_service q' = 1%Z).
Proof.
  unfold arrival. destruct (in_service _ =? 0)%Z.
  - intros H. by apply start_service_pending in H.
  - intros [= <- <-]. by split_and!.
Qed.

Lemma end_service_pending q s q' s' :
  end_service q s = Ok (q', s') →
  now s' = now s ∧
  pending Airport_handle_arrival s' = pending Airport_handle_arrival s ∧
  (Z.of_nat (pending Queue_end_service s') - in_service q' =
   Z.of_nat (pending Queue_end_service s))%Z ∧
  (in_service q' = 0%Z ∨ in_service q' = 1%Z).
Proof.
  unfold end_service. destruct (0 <? queue_length _)%Z.
  - intros H. apply start_service_pending in H as (H1 & H2 & H3 & H4).
    simpl in *. split_and!; auto; lia.
  - intros [= <- <-]. simpl. split_and!; auto; lia.
Qed.

Lemma sim_inv_step (s : Schedule callback) (w : World) s' w' :
  sim_inv s w → run_next_event call s w = Ok (s', w') → sim_inv s' w'.
Proof.
  intros (Ha & He & Hs) Hrun.
  assert (priority_queue s ≠ []) as Hne.
  { intros E. unfold pending in Ha. by rewrite E in Ha. }
  destruct (run_next_event_spec call s w Hne)
    as (m & pq' & _ & _ & Hperm & _ & Hrun').
  rewrite Hrun' in Hrun. clear Hrun'.
  set (s1 := {| now := timestamp m; priority_queue := pq' |}) in *.
  unfold pending in Ha, He. rewrite Hperm, filter_cons in Ha, He.
  destruct w as [a rng]. destruct m as [t []]; simpl in *.
  - (* a service completion *)
    destruct (end_service (queue a) s1) as [[q s2]|x [q s2]] eqn:Hend;
      [|done].
    apply end_service_pending in Hend as (_ & H2 & H3 & H4).
    simplify_eq. unfold sim_inv. subst s1. unfold pending in *.
    simpl in *. split_and!; auto; lia.
  - (* an arrival *)
    unfold handle_arrival in Hrun.
    destruct (arrival (queue a) s1) as [[q s2]|x [q s2]] eqn:Harr; [|done].
    apply arrival_pending in Harr as (_ & H2 & H3 & H4).
    unfold expovariate in Hrun. simpl in Hrun.
    destruct (Qeq_bool _ _); [done|]. unfold add_event_after in Hrun.
    destruct (add_event_at s2 _ _) as [s3|] eqn:Hadd; [|done].
    destruct (pending_add_event_at Airport_handle_arrival _ _ _ _ Hadd)
      as [_ Ha3].
    destruct (pending_add_event_at Queue_end_service _ _ _ _ Hadd)
      as [_ He3].
    simplify_eq. unfold sim_inv. simpl in *.
    rewrite Ha3, He3. subst s1. unfold pending in *.
    simpl in *. split_and!; auto; lia.
Qed.

Lemma sim_inv_start lam mu rng s w :
  schedule_initial_arrival (Airport_init lam mu) Schedule_init rng =
    Ok (s, w) →
  sim_inv s w.
Proof.
  unfold schedule_initial_arrival, expovariate.
  destruct (Qeq_bool _ _); [done|]. unfold add_event_after.
  destruct (add_event_at _ _ _) as [s1|] eqn:Hadd; [|done].
  destruct (pending_add_event_at Airport_handle_arrival _ _ _ _ Hadd)
    as [_ Ha].
  destruct (pending_add_event_at Queue_end_service _ _ _ _ Hadd) as [_ He].
  intros [= <- <-]. unfold sim_inv. rewrite Ha, He. simpl. auto.
Qed.

Section Loop_invariants.
Context {callback W : Type}.
Variable call :
  callback → Schedule callback → W → outcome (Schedule callback * W).
Variable I : Schedule callback → W → Prop.
Hypothesis I_step :
  ∀ s w s' w', I s w → run_next_event call s w = Ok (s', w') → I s' w'.

(** What every normal [run_next_event] keeps holds at the top of every
    iteration of the loop and when the loop ends normally. *)
Lemma loop_state_inv run_until k : ∀ s w sk wk,
  I s w → loop_state call k run_until s w = Some (sk, wk) → I sk wk.
Proof using I_step.
  induction k as [|k IH]; intros s w sk wk Hs; simpl.
  { by intros [= <- <-]. }
  destruct (loop_cond run_until s); [|done].
  destruct (run_next_event call s w) as [[s1 w1]|] eqn:Hrun; [|done].
  apply IH. by eapply I_step.
Qed.

Lemma run_loop_inv run_until fuel : ∀ s w s' w',
  I s w → run_loop call fuel run_until s w = Some (Ok (s', w')) →
  I s' w' ∧ loop_cond run_until s' = false.
Proof using I_step.
  induction fuel as [|fuel IH]; intros s w s' w' Hs; simpl; [done|].
  destruct (loop_cond run_until s) eqn:Hcond.
  - destruct (run_next_event call s w) as [[s1 w1]|] eqn:Hrun; [|done].
    apply IH. by eapply I_step.
  - by intros [= <- <-].
Qed.
End Loop_invariants.

(** X11: throughout [run_simulation], at the top of every iteration of the
    loop and when the loop ends normally, exactly one arrival is pending and
    the number of pending service completions equals [in_service], which is
    0 or 1: the server never has two completions scheduled. *)
Theorem simulation_pending (lam mu : Q) (run_until : xtime) (rng : Random) :
  (∀ fuel s w,
     run_simulation lam mu run_until rng fuel = Some (Ok (s, w)) →
     sim_inv s w) ∧
  (∀ s0 w0 k sk wk,
     schedule_initial_arrival (Airport_init lam mu) Schedule_init rng =
       Ok (s0, w0) →
     loop_state call k run_until s0 w0 = Some (sk, wk) →
     sim_inv sk wk).
Proof.
  split.
  - intros fuel s w. unfold run_simulation.
    destruct (schedule_initial_arrival _ _ _) as [[s0 [a0 rng0]]|] eqn:H0;
      [|done].
    intros Hloop.
    eapply (run_loop_inv call sim_inv sim_inv_step); [|exact Hloop].
    by eapply sim_inv_start.
  - intros s0 w0 k sk wk H0 Hk.
    eapply (loop_state_inv call sim_inv sim_inv_step); [|exact Hk].
    by eapply sim_inv_start.
Qed.

Lemma simulation_pending_witness :
  ∃ s w,
    run_simulation (1 # 2) 1 (Finite 3) unit_source 20 = Some (Ok (s, w)) ∧
    sim_inv s w.
Proof.
  do 2 eexists.
  assert (run_simulation (1 # 2) 1 (Finite 3) unit_source 20 =
            Some (Ok (_, _))) as H by reflexivity.
  split; [exact H|].
  exact (proj1 (simulation_pending (1 # 2) 1 (Finite 3) unit_source)
           20 _ _ H).
Defined.

(** X12: the loop of [run_simulation] never ends because the schedule ran
    empty.  When [run_simulation] returns normally an event is still
    pending, and the first pending event fails the loop's test
    [timestamp <= run_until]. *)
Theorem simulation_never_runs_empty (lam mu : Q) (run_until : xtime)
    (rng : Random) (fuel : nat) s w :
  run_simulation lam mu run_until rng fuel = Some (Ok (s, w)) →
  ∃ m, priority_queue s !! 0 = Some m ∧
       next_event_time s = Finite (timestamp m) ∧
       xle_bool (Finite (timestamp m)) run_until = false.
Proof.
  unfold run_simulation.
  destruct (schedule_initial_arrival _ _ _) as [[s0 [a0 rng0]]|] eqn:H0;
    [|done].
  intros Hloop.
  destruct (run_loop_inv call sim_inv sim_inv_step run_until fuel
              s0 (a0, rng0) s w) as [(Ha & _) Hcond];
    [by eapply sim_inv_start|done|].
  unfold loop_cond, next_event_time in *. unfold pending in Ha.
  destruct (priority_queue s) as [|e pq]; [done|].
  exists e. by split_and!.
Qed.

Lemma simulation_never_runs_empty_witness :
  ∃ s w,
    run_simulation (1 # 2) 1 (Finite 3) unit_source 20 = Some (Ok (s, w)) ∧
    ∃ m, priority_queue s !! 0 = Some m ∧
         next_event_time s = Finite (timestamp m) ∧
         xle_bool (Finite (timestamp m)) (Finite 3) = false.
Proof.
  do 2 eexists.
  assert (run_simulation (1 # 2) 1 (Finite 3) unit_source 20 =
            Some (Ok (_, _))) as H by reflexivity.
  split; [exact H|].
  exact (simulation_never_runs_empty (1 # 2) 1 (Finite 3) unit_source
           20 _ _ H).
Defined.

(** ** The simulation: samples in time order *)

Lemma map_const_replicate {A B} (x : B) (l : list A) :
  map (λ _, x) l = replicate (length l) x.
Proof. induction l as [|a l IH]; simpl; [done|]. by rewrite IH. Qed.

Lemma timed_extend (l : list Q) (t t' : Q) (k : nat) :
  StronglySorted Qle l → Forall (λ x, (x <= t)%Q) l → (t <= t')%Q →
  StronglySorted Qle (l ++ replicate k t') ∧
  Forall (λ x, (x <= t')%Q) (l ++ replicate k t').
Proof.
  intros Hs Hl Ht.
  assert (Forall (λ x, (x <= t')%Q) (replicate k t')) as Hr.
  { apply Forall_replicate. lra. }
  assert (StronglySorted Qle (replicate k t')) as Hsr.
  { induction k as [|k IH]; simpl; [constructor|].
    apply Forall_cons in Hr as [_ Hr]. constructor; [by apply IH|].
    apply Forall_replicate. lra. }
  assert (Forall (λ x, (x <= t')%Q) l) as Hl'.
  { eapply Forall_impl; [exact Hl|]. simpl. intros; lra. }
  split; [|by apply Forall_app].
  clear Hl'. induction Hs as [|a l Hs IH Ha]; simpl; [done|].
  apply Forall_cons in Hl as [Hat Hl].
  constructor; [by apply IH|]. apply Forall_app. split; [done|].
  apply Forall_replicate. lra.
Qed.

(** A handler records its samples at the clock. *)
Lemma call_time_history f (s : Schedule callback) (w : World) :
  ∃ k, time_history (queue (final (call f s w)).2.1) =
       time_history (queue w.1) ++ replicate k (now s).
Proof.
  destruct w as [a rng]. destruct f; simpl.
  - destruct (op_samples_history EndService (queue a) s) as [_ Ht].
    rewrite map_const_replicate in Ht. unfold apply_op in Ht.
    set (k := length _) in Ht. clearbody k.
    destruct (end_service (queue a) s) as [[q s1]|x [q s1]]; simpl in *;
      eauto.
  - unfold handle_arrival.
    destruct (op_samples_history Arrival (queue a) s) as [_ Ht].
    rewrite map_const_replicate in Ht. unfold apply_op in Ht.
    set (k := length _) in Ht. clearbody k.
    destruct (arrival (queue a) s) as [[q s1]|x [q s1]]; simpl in *;
      [|eauto].
    destruct (expovariate _ _) as [[i|] rng1]; simpl; [|eauto].
    destruct (add_event_after _ _ _); simpl; eauto.
Qed.

Lemma timed_inv_step (s : Schedule callback) (w : World) s' w' :
  timed_inv s w → run_next_event call s w = Ok (s', w') → timed_inv s' w'.
Proof.
  intros (Hc & Hw & Hs & Hl) Hrun.
  destruct (run_next_event_causal call Winv s w call_causal Hw Hc)
    as (Hle & Hc' & Hw').
  assert (∃ k, time_history (queue w'.1) =
               time_history (queue w.1) ++ replicate k (now s')) as [k Hk].
  { destruct (decide (priority_queue s = [])) as [Hnil|Hne].
    { rewrite run_next_event_empty in Hrun by done. simplify_eq.
      exists 0. simpl. by rewrite app_nil_r. }
    destruct (run_next_event_spec call s w Hne)
      as (m & pq' & _ & _ & _ & _ & Hrun').
    rewrite Hrun' in Hrun.
    destruct (call_time_history (function m)
                {| now := timestamp m; priority_queue := pq' |} w)
      as [k Hk].
    destruct (call_adds (function m)
                {| now := timestamp m; priority_queue := pq' |} w)
      as [(Hnow & _) _].
    rewrite Hrun in Hk, Hnow. simpl in Hk, Hnow.
    exists k. by rewrite Hnow. }
  rewrite Hrun in Hle, Hc', Hw'. simpl in Hle, Hc', Hw'.
  split; [done|]. split; [done|]. unfold timed. rewrite Hk.
  by eapply timed_extend.
Qed.

Lemma timed_inv_start lam mu rng s w :
  (0 < lam)%Q → (0 < mu)%Q → (∀ n, (0 <= source rng n)%Q) →
  schedule_initial_arrival (Airport_init lam mu) Schedule_init rng =
    Ok (s, w) →
  timed_inv s w.
Proof.
  intros Hlam Hmu Hdraw. unfold schedule_initial_arrival, expovariate.
  destruct (Qeq_bool _ _); [done|].
  destruct (add_event_after_adds (@Schedule_init callback)
              (source rng (position rng) / lam)%Q Airport_handle_arrival)
    as (s' & Hs' & Hnow & Hheap & added & Hperm & Hadded).
  change (arrival_rate (Airport_init lam mu)) with lam.
  rewrite Hs'. intros [= <- <-].
  split; [split|split].
  - apply Hheap, heapq_spec.is_heap_nil.
  - unfold no_past. rewrite Hperm, Hnow, app_nil_r. simpl.
    eapply Forall_impl; [exact Hadded|]. simpl. intros e ->.
    pose proof (Qdiv_nonneg _ _ (Hdraw (position rng)) Hlam). lra.
  - done.
  - split; constructor.
Qed.

(** X13: with positive rates and non-negative draws, when [run_simulation]
    returns normally the recorded sample times are in non-decreasing order
    and none is later than the final clock. *)
Theorem time_history_sorted (lam mu : Q) (run_until : xtime) (rng : Random)
    (fuel : nat) s w :
  (0 < lam)%Q → (0 < mu)%Q → (∀ n, (0 <= source rng n)%Q) →
  run_simulation lam mu run_until rng fuel = Some (Ok (s, w)) →
  Sorted Qle (time_history (queue w.1)) ∧
  Forall (λ t, (t <= now s)%Q) (time_history (queue w.1)).
Proof.
  intros Hlam Hmu Hdraw. unfold run_simulation.
  destruct (schedule_initial_arrival _ _ _) as [[s0 [a0 rng0]]|] eqn:H0;
    [|done].
  intros Hloop.
  destruct (run_loop_inv call timed_inv timed_inv_step run_until fuel
              s0 (a0, rng0) s w) as [(_ & _ & Hs & Hl) _];
    [exact (timed_inv_start lam mu rng _ _ Hlam Hmu Hdraw H0)|done|].
  split; [by apply StronglySorted_Sorted|done].
Qed.

Lemma time_history_sorted_witness :
  ((0 < 1 # 2)%Q ∧ (0 < 1)%Q ∧ (∀ n, (0 <= source unit_source n)%Q)) ∧
  ∃ s w,
    run_simulation (1 # 2) 1 (Finite 3) unit_source 20 = Some (Ok (s, w)) ∧
    time_history (queue w.1) = [0 + 1 / (1 # 2); 0 + 1 / (1 # 2);
                                0 + 1 / (1 # 2) + 1 / 1]%Q ∧
    Sorted Qle (time_history (queue w.1)) ∧
    Forall (λ t, (t <= now s)%Q) (time_history (queue w.1)).
Proof.
  assert ((0 < 1 # 2)%Q ∧ (0 < 1)%Q ∧ (∀ n, (0 <= source unit_source n)%Q))
    as (H1 & H2 & H3).
  { split; [reflexivity|]. split; [reflexivity|]. intros n. discriminate. }
  split; [split; [exact H1|split; [exact H2|exact H3]]|].
  do 2 eexists.
  assert (run_simulation (1 # 2) 1 (Finite 3) unit_source 20 =
            Some (Ok (_, _))) as H by reflexivity.
  split; [exact H|]. split; [reflexivity|].
  exact (time_history_sorted (1 # 2) 1 (Finite 3) unit_source 20 _ _
           H1 H2 H3 H).
Defined.

(** ** The simulation: the clock, and runs that stop early *)

(** X14: when the loop of [run_simulation] ends normally, the clock is the
    timestamp of the last event it popped, or still the clock at the start
    of the loop when it popped none: the handlers never move the clock. *)
Theorem clock_is_last_popped (run_until : xtime) (fuel : nat)
    (s : Schedule callback) (w : World) s' w' :
  run_loop call fuel run_until s w = Some (Ok (s', w')) →
  now s' =
    default (now s)
      (last (timestamp <$> popped_by_loop call fuel run_until s w)).
Proof.
  revert s w. induction fuel as [|fuel IH]; intros s w; simpl; [done|].
  destruct (loop_cond run_until s) eqn:Hcond; [|by intros [= <- <-]].
  assert (priority_queue s ≠ []) as Hne.
  { intros E. unfold loop_cond in Hcond. by rewrite E in Hcond. }
  destruct (run_next_event_spec call s w Hne)
    as (m & pq' & Hpop & _ & _ & _ & Hrun).
  rewrite Hpop.
  destruct (call_adds (function m)
              {| now := timestamp m; priority_queue := pq' |} w)
    as [(Hnow & _) _].
  rewrite <- Hrun in Hnow.
  destruct (run_next_event call s w) as [[s2 w2]|]; [|done].
  simpl in Hnow. intros Hloop. rewrite (IH s2 w2 Hloop), Hnow.
  destruct (popped_by_loop call fuel run_until s2 w2) as [|e l];
    [reflexivity|].
  rewrite !fmap_cons, last_cons_cons.
  destruct (proj2 (last_is_Some (timestamp e :: (timestamp <$> l))))
    as [x ->]; done.
Qed.

Lemma clock_is_last_popped_witness :
  ∃ s' w',
    run_loop call 3 (Finite 2) three_pending unit_world =
      Some (Ok (s', w')) ∧
    now s' = 2%Q ∧
    now s' =
      default (now three_pending)
        (last (timestamp <$>
               popped_by_loop call 3 (Finite 2) three_pending unit_world)).
Proof.
  do 2 eexists.
  assert (run_loop call 3 (Finite 2) three_pending unit_world =
            Some (Ok (_, _))) as H by reflexivity.
  split; [exact H|]. split; [reflexivity|].
  exact (clock_is_last_popped (Finite 2) 3 three_pending unit_world _ _ H).
Defined.

(** X15: when the first arrival falls after the horizon (a horizon of 0
    with a positive first draw, for one), [run_simulation] executes no
    event: it returns normally with the clock at 0, the queue untouched
    with empty histories, one draw consumed and the first arrival
    pending. *)
Theorem no_event_before_first_arrival (lam mu horizon : Q) (rng : Random)
    (fuel : nat) :
  ¬ (lam == 0)%Q → (horizon < source rng (position rng) / lam)%Q →
  run_simulation lam mu (Finite horizon) rng (S fuel) =
    Some (Ok ({| now := 0;
                 priority_queue :=
                   [{| timestamp := 0 + source rng (position rng) / lam;
                       function := Airport_handle_arrival |}] |},
              (Airport_init lam mu, advance rng))).
Proof.
  intros Hlam Hh.
  unfold run_simulation, schedule_initial_arrival, expovariate. simpl.
  rewrite (Qeq_bool_false _ _ Hlam). simpl. unfold loop_cond. simpl.
  destruct (Qle_bool _ horizon) eqn:E; [|done].
  apply Qle_bool_iff in E. lra.
Qed.

Lemma no_event_before_first_arrival_witness :
  (¬ (2 == 0)%Q ∧ (0 < source unit_source (position unit_source) / 2)%Q) ∧
  run_simulation 2 1 (Finite 0) unit_source 1 =
    Some (Ok ({| now := 0;
                 priority_queue :=
                   [{| timestamp := 0 + 1 / 2;
                       function := Airport_handle_arrival |}] |},
              (Airport_init 2 1, advance unit_source))).
Proof.
  assert (¬ (2 == 0)%Q) as H1 by (intros E; discriminate E).
  assert (0 < source unit_source (position unit_source) / 2)%Q as H2
    by reflexivity.
  split; [split; [exact H1|exact H2]|].
  exact (no_event_before_first_arrival 2 1 0 unit_source 0 H1 H2).
Defined.

(** X16: a zero service rate goes unnoticed until the first customer
    starts service.  If the first arrival is due by [run_until],
    [run_simulation] raises [ZeroDivisionError] inside that arrival: the
    clock stands at the arrival, the customer is marked in service with two
    samples recorded, no service completion and no further arrival are
    scheduled, and one draw was consumed. *)
Theorem zero_service_rate_fails_at_first_arrival (lam mu : Q)
    (run_until : xtime) (rng : Random) (fuel : nat) :
  ¬ (lam == 0)%Q → (mu == 0)%Q →
  xle_bool (Finite (0 + source rng (position rng) / lam)) run_until = true →
  run_simulation lam mu run_until rng (S fuel) =
    Some (Raise ZeroDivisionError
            ({| now := 0 + source rng (position rng) / lam;
                priority_queue := [] |},
             ({| arrival_rate := lam;
                 queue :=
                   {| queue_length := 0; in_service := 1;
                      service_rate := mu;
                      queue_length_history := [1; 1]%Z;
                      time_history :=
                        [0 + source rng (position rng) / lam;
                         0 + source rng (position rng) / lam]%Q |} |},
              advance rng))).
Proof.
  intros Hlam Hmu Hdue.
  unfold run_simulation, schedule_initial_arrival, expovariate. simpl.
  rewrite (Qeq_bool_false _ _ Hlam). simpl. unfold loop_cond. simpl.
  simpl in Hdue. rewrite Hdue.
  unfold run_next_event. simpl.
  unfold Event_run, call, handle_arrival, arrival, start_service. simpl.
  by rewrite (proj2 (Qeq_bool_iff _ _) Hmu).
Qed.

Lemma zero_service_rate_fails_at_first_arrival_witness :
  (¬ (1 == 0)%Q ∧ (0 == 0)%Q ∧
   xle_bool
     (Finite (0 + source unit_source (position unit_source) / 1)) Inf =
     true) ∧
  run_simulation 1 0 Inf unit_source 1 =
    Some (Raise ZeroDivisionError
            ({| now := 0 + 1 / 1; priority_queue := [] |},
             ({| arrival_rate := 1;
                 queue :=
                   {| queue_length := 0; in_service := 1;
                      service_rate := 0;
                      queue_length_history := [1; 1]%Z;
                      time_history := [0 + 1 / 1; 0 + 1 / 1]%Q |} |},
              advance unit_source))).
Proof.
  assert (¬ (1 == 0)%Q) as H1 by (intros E; discriminate E).
  assert (0 == 0)%Q as H2 by reflexivity.
  split; [split; [exact H1|split; [exact H2|reflexivity]]|].
  exact (zero_service_rate_fails_at_first_arrival 1 0 Inf unit_source 0
           H1 H2 eq_refl).
Defined.

Lemma start_service_zero_rate_witness :
  let self := one_waiting 0 in
  let schedule : Schedule callback := Schedule_init in
  ((0 < queue_length self)%Z ∧ in_service self = 0%Z ∧
   (service_rate self == 0)%Q) ∧
  start_service self schedule =
    Raise ZeroDivisionError
      (record_state
         (set_in_service
            (set_queue_length self (queue_length self - 1)) 1)
         (now schedule),
       schedule).
Proof.
  assert ((0 < 1)%Z ∧ 0%Z = 0%Z ∧ (0 == 0)%Q) as H.
  { split; [reflexivity|]. split; reflexivity. }
  split; [exact H|].
  apply (start_service_zero_rate (one_waiting 0) Schedule_init); apply H.
Defined.

(** ** The arrival process and the customers it brings *)

(** X17: [handle_arrival] first lets the customer arrive at the queue and
    then, when that returned and the arrival rate is nonzero, consumes one
    draw and schedules exactly one next arrival, [draw / arrival_rate]
    after the clock.  When the queue's [arrival] raises, the exception
    passes through: no draw is consumed and no next arrival is
    scheduled. *)
Theorem handle_arrival_effect (self : Airport) (schedule : Schedule callback)
    (rng : Random) :
  (∀ q s1,
     arrival (queue self) schedule = Ok (q, s1) →
     ¬ (arrival_rate self == 0)%Q →
     ∃ pq',
       handle_arrival self schedule rng =
         Ok ({| now := now schedule; priority_queue := pq' |},
             (set_queue self q, advance rng)) ∧
       pq' ≡ₚ
         {| timestamp :=
              (now schedule + source rng (position rng) / arrival_rate self)%Q;
            function := Airport_handle_arrival |} :: priority_queue s1) ∧
  (∀ e q s1,
     arrival (queue self) schedule = Raise e (q, s1) →
     handle_arrival self schedule rng =
       Raise e (s1, (set_queue self q, rng))).
Proof.
  split.
  - intros q s1 Harr Hlam. unfold handle_arrival. rewrite Harr.
    apply arrival_pending in Harr as (Hnow & _).
    unfold expovariate. simpl. rewrite (Qeq_bool_false _ _ Hlam).
    unfold add_event_after.
    destruct (add_event_at_spec s1
                (now s1 + source rng (position rng) / arrival_rate self)%Q
                Airport_handle_arrival) as (pq' & -> & Hperm & _).
    exists pq'. rewrite Hnow in *. by split.
  - intros e q s1 Harr. unfold handle_arrival. by rewrite Harr.
Qed.

Lemma handle_arrival_effect_witness :
  ∃ q s1,
    arrival (queue (Airport_init 1 1)) Schedule_init = Ok (q, s1) ∧
    ¬ (arrival_rate (Airport_init 1 1) == 0)%Q ∧
    ∃ pq',
      handle_arrival (Airport_init 1 1) Schedule_init unit_source =
        Ok ({| now := now (@Schedule_init callback); priority_queue := pq' |},
            (set_queue (Airport_init 1 1) q, advance unit_source)) ∧
      pq' ≡ₚ
        {| timestamp :=
             (now (@Schedule_init callback) +
              source unit_source (position unit_source) /
              arrival_rate (Airport_init 1 1))%Q;
           function := Airport_handle_arrival |} :: priority_queue s1.
Proof.
  do 2 eexists.
  assert (arrival (queue (Airport_init 1 1)) Schedule_init = Ok (_, _))
    as H by reflexivity.
  assert (¬ (arrival_rate (Airport_init 1 1) == 0)%Q) as Hl
    by (intros E; discriminate E).
  split; [exact H|]. split; [exact Hl|].
  exact (proj1 (handle_arrival_effect (Airport_init 1 1) Schedule_init
                  unit_source) _ _ H Hl).
Defined.

Lemma start_service_occupancy q s q' s' :
  start_service q s = Ok (q', s') →
  (queue_length q' + in_service q' = queue_length q + in_service q)%Z.
Proof.
  unfold start_service.
  destruct (0 <? queue_length q)%Z; simpl;
    [destruct (Z.eqb_spec (in_service q) 0) as [Hs|Hs]; simpl|];
    try (by intros [= <- <-]).
  destruct (Qeq_bool _ _); [done|].
  destruct (add_event_after _ _ _); [|done].
  intros [= <- <-]. simpl. lia.
Qed.

(** One event run in the simulation changes the occupancy by one: up for
    an arrival, down for a service completion. *)
Lemma call_occupancy (s : Schedule callback) (w : World) m pq' s2 w2 :
  sim_inv s w → priority_queue s ≡ₚ m :: pq' →
  call (function m) {| now := timestamp m; priority_queue := pq' |} w =
    Ok (s2, w2) →
  (occupancy (queue w2.1) =
   occupancy (queue w.1) +
   Z.of_nat (calls Airport_handle_arrival [m]) -
   Z.of_nat (calls Queue_end_service [m]))%Z.
Proof.
  intros (_ & He & Hs) Hperm. destruct w as [a rng].
  unfold pending in He. rewrite Hperm, filter_cons in He.
  unfold occupancy, calls. rewrite !filter_cons.
  destruct m as [t []]; simpl in *.
  - destruct (end_service (queue a) _) as [[q s3]|x [q s3]] eqn:Hend;
      [|done].
    intros [= <- <-]. simpl. unfold end_service in Hend.
    destruct (0 <? queue_length _)%Z.
    + apply start_service_occupancy in Hend. simpl in Hend. lia.
    + simplify_eq. simpl. lia.
  - unfold handle_arrival.
    destruct (arrival (queue a) _) as [[q s3]|x [q s3]] eqn:Harr;
      [|done].
    destruct (expovariate _ _) as [[i|] rng1]; [|done].
    destruct (add_event_after _ _ _); [|done].
    intros [= <- <-]. simpl. unfold arrival in Harr.
    destruct (in_service _ =? 0)%Z.
    + apply start_service_occupancy in Harr. simpl in Harr. lia.
    + simplify_eq. simpl. lia.
Qed.

Lemma run_loop_conservation (run_until : xtime) (fuel : nat) :
  ∀ (s : Schedule callback) (w : World) s' w',
    sim_inv s w →
    run_loop call fuel run_until s w = Some (Ok (s', w')) →
    (occupancy (queue w'.1) =
     occupancy (queue w.1) +
     Z.of_nat (calls Airport_handle_arrival
                 (popped_by_loop call fuel run_until s w)) -
     Z.of_nat (calls Queue_end_service
                 (popped_by_loop call fuel run_until s w)))%Z.
Proof.
  induction fuel as [|fuel IH]; intros s w s' w' Hinv; simpl; [done|].
  destruct (loop_cond run_until s) eqn:Hcond.
  2:{ intros [= <- <-]. unfold calls. simpl. lia. }
  assert (priority_queue s ≠ []) as Hne.
  { intros E. unfold loop_cond in Hcond. by rewrite E in Hcond. }
  destruct (run_next_event_spec call s w Hne)
    as (m & pq' & Hpop & _ & Hperm & _ & Hrun).
  rewrite Hpop.
  destruct (run_next_event call s w) as [[s2 w2]|] eqn:Hrun2; [|done].
  intros Hloop.
  pose proof (sim_inv_step s w s2 w2 Hinv Hrun2) as Hinv2.
  rewrite (IH s2 w2 s' w' Hinv2 Hloop).
  rewrite (call_occupancy s w m pq' s2 w2 Hinv Hperm (eq_sym Hrun)).
  unfold calls. rewrite !filter_cons.
  destruct (decide _), (decide _); simpl; lia.
Qed.

(** X18: no customer is lost or invented.  When [run_simulation] returns
    normally, the final occupancy ([queue_length + in_service]) is the
    number of arrivals its loop ran minus the number of service completions
    it ran. *)
Theorem customers_conserved (lam mu : Q) (run_until : xtime) (rng : Random)
    (fuel : nat) s0 w0 s w :
  schedule_initial_arrival (Airport_init lam mu) Schedule_init rng =
    Ok (s0, w0) →
  run_simulation lam mu run_until rng fuel = Some (Ok (s, w)) →
  (occupancy (queue w.1) =
   Z.of_nat (calls Airport_handle_arrival
               (popped_by_loop call fuel run_until s0 w0)) -
   Z.of_nat (calls Queue_end_service
               (popped_by_loop call fuel run_until s0 w0)))%Z.
Proof.
  intros H0. unfold run_simulation. rewrite H0. destruct w0 as [a0 rng0].
  intros Hloop.
  rewrite (run_loop_conservation run_until fuel s0 (a0, rng0) s w
             (sim_inv_start _ _ _ _ _ H0) Hloop).
  unfold schedule_initial_arrival in H0.
  destruct (expovariate _ _) as [[i|] rng1]; [|done].
  destruct (add_event_after _ _ _); [|done].
  simplify_eq. unfold occupancy. simpl. lia.
Qed.

Lemma customers_conserved_witness :
  ∃ s0 w0 s w,
    schedule_initial_arrival (Airport_init 1 (1 # 3)) Schedule_init
      unit_source = Ok (s0, w0) ∧
    run_simulation 1 (1 # 3) (Finite 1) unit_source 2 = Some (Ok (s, w)) ∧
    (occupancy (queue w.1) =
     Z.of_nat (calls Airport_handle_arrival
                 (popped_by_loop call 2 (Finite 1) s0 w0)) -
     Z.of_nat (calls Queue_end_service
                 (popped_by_loop call 2 (Finite 1) s0 w0)))%Z.
Proof.
  do 4 eexists.
  assert (schedule_initial_arrival (Airport_init 1 (1 # 3)) Schedule_init
            unit_source = Ok (_, _)) as H0 by reflexivity.
  assert (run_simulation 1 (1 # 3) (Finite 1) unit_source 2 =
            Some (Ok (_, _))) as H by reflexivity.
  split; [exact H0|]. split; [exact H|].
  exact (customers_conserved 1 (1 # 3) (Finite 1) unit_source 2
           _ _ _ _ H0 H).
Defined.
